(** * The code-generation core of the Vue single-file-component plugin

    A shallow embedding of [src/unnamed/part_000] (the module that
    [main.ts] imports as [./injection]) and of
    [src/packages/plugin-vue/src/main.ts], followed by the properties
    established about them.

    JavaScript strings are sequences of code units; they are modelled
    as [list ascii], which covers every string whose code units are
    below 256.  Offsets and line numbers are JavaScript numbers holding
    integers and are modelled in [Z]. *)

From Stdlib Require Import ZArith List Ascii String Lia Bool DecimalString.
From stdpp Require Import base list sorting strings.
From Equations Require Import Equations.

Set Warnings "-register-all".
Local Open Scope Z_scope.

(* ================================================================== *)
(** * JavaScript values and built-ins used by the sources *)
(* ================================================================== *)

Module JS.

Abbreviation str := (list ascii).

(** A string literal of the source. *)
Definition lit (s : string) : str := list_ascii_of_string s.

(** ** Exceptions *)

Inductive exn :=
| JsError (message : str)   (* throw new Error(message) *)
| JsTypeError               (* property read on undefined or null *)
| Foreign (tag : str).      (* raised by an external collaborator *)

Inductive completion (A : Type) :=
| Normal (a : A)
| Throw (e : exn).
Arguments Normal {A} a.
Arguments Throw {A} e.

Global Instance completion_ret : MRet completion := fun A a => Normal a.
Global Instance completion_bind : MBind completion := fun A B f m =>
  match m with
  | Normal a => f a
  | Throw e => Throw e
  end.

(** ** Strings *)

Definition len (s : str) : Z := Z.of_nat (length s).

(** Relative index resolution of [String.prototype.slice]: a negative
    index counts from the end, and the result is clamped to the string. *)
Definition rel_index (n i : Z) : Z :=
  if i <? 0 then Z.max (n + i) 0 else Z.min i n.

(** [s.slice(a, b)] *)
Definition slice (s : str) (a b : Z) : str :=
  let from := rel_index (len s) a in
  let to := rel_index (len s) b in
  let span := Z.max (to - from) 0 in
  take (Z.to_nat span) (drop (Z.to_nat from) s).

(** [s.slice(a)] *)
Definition slice_from (s : str) (a : Z) : str := slice s a (len s).

(** [xs.join(sep)] on an array of strings. *)
Fixpoint join (sep : str) (xs : list str) : str :=
  match xs with
  | [] => []
  | [x] => x
  | x :: rest => x ++ sep ++ join sep rest
  end.

(** [s.endsWith(suffix)], the test behind a regular expression of the
    shape [/suffix$/]. *)
Definition ends_with (suffix s : str) : bool :=
  bool_decide (drop (length s - length suffix)%nat s = suffix).

(** Decimal rendering of an integer-valued number, as in [`${n}`] and in
    [JSON.stringify(n)]. *)
Definition number_to_string (n : Z) : str :=
  lit (NilZero.string_of_int (Z.to_int n)).

Definition hex_digit (upper : bool) (n : N) : ascii :=
  if (n <? 10)%N then ascii_of_N (48 + n)
  else ascii_of_N ((if upper then 55 else 87) + n).

Definition hex2 (upper : bool) (n : N) : str :=
  [hex_digit upper (n / 16); hex_digit upper (n mod 16)].

(** [JSON.stringify(s)] for a string [s] (QuoteJSONString). *)
Definition quote_json_char (c : ascii) : str :=
  let n := N_of_ascii c in
  if (n =? 8)%N then lit "\b"
  else if (n =? 9)%N then lit "\t"
  else if (n =? 10)%N then lit "\n"
  else if (n =? 12)%N then lit "\f"
  else if (n =? 13)%N then lit "\r"
  else if (n =? 34)%N then [ascii_of_N 92; ascii_of_N 34]
  else if (n =? 92)%N then [ascii_of_N 92; ascii_of_N 92]
  else if (n <? 32)%N then lit "\u00" ++ hex2 false n
  else [c].

Definition JSON_stringify (s : str) : str :=
  [ascii_of_N 34] ++ concat (map quote_json_char s) ++ [ascii_of_N 34].

(** [encodeURIComponent(s)]: letters, digits and [-_.!~*'()] are kept,
    every other code unit is written as the percent-escaped bytes of its
    UTF-8 encoding. *)
Definition uri_unreserved (c : ascii) : bool :=
  let n := N_of_ascii c in
  ((65 <=? n) && (n <=? 90) || (97 <=? n) && (n <=? 122)
   || (48 <=? n) && (n <=? 57))%N
  || bool_decide (c ∈ lit "-_.!~*'()").

Definition percent (byte : N) : str := lit "%" ++ hex2 true byte.

Definition encode_uri_char (c : ascii) : str :=
  let n := N_of_ascii c in
  if uri_unreserved c then [c]
  else if (n <? 128)%N then percent n
  else percent (192 + n / 64) ++ percent (128 + n mod 64).

Definition encodeURIComponent (s : str) : str :=
  concat (map encode_uri_char s).

(** ** Objects

    An object with string keys is the list of its own enumerable
    properties in enumeration order, the order followed by [for ... in],
    [Object.values] and [Object.entries]: array-index keys first, in
    ascending numeric order, then the other keys in creation order. *)

Abbreviation obj V := (list (str * V)).

Fixpoint obj_get {V} (o : obj V) (k : str) : option V :=
  match o with
  | [] => None
  | (k', v) :: o' => if decide (k' = k) then Some v else obj_get o' k
  end.

(** [k in o] *)
Definition obj_has {V} (o : obj V) (k : str) : bool :=
  bool_decide (is_Some (obj_get o k)).

Definition is_digit (c : ascii) : bool :=
  let n := N_of_ascii c in ((48 <=? n) && (n <=? 57))%N.

Definition digits_value (s : str) : N :=
  foldl (fun acc c => (10 * acc + (N_of_ascii c - 48))%N) 0%N s.

(** The numeric value of a key that is an array index: a canonical
    decimal numeral below [2^32 - 1]. *)
Definition array_index (k : str) : option N :=
  match k with
  | [] => None
  | c :: rest =>
      if forallb is_digit k
         && (negb (bool_decide (c = "0"%char)) || bool_decide (rest = []))
         && (digits_value k <? 4294967295)%N
      then Some (digits_value k)
      else None
  end.

(** Creation of a property that is not yet present. *)
Fixpoint obj_create {V} (o : obj V) (k : str) (v : V) : obj V :=
  match o with
  | [] => [(k, v)]
  | (k', v') :: o' =>
      match array_index k, array_index k' with
      | Some i, Some i' =>
          if (i <? i')%N then (k, v) :: o else (k', v') :: obj_create o' k v
      | Some _, None => (k, v) :: o
      | None, _ => (k', v') :: obj_create o' k v
      end
  end.

Fixpoint obj_update {V} (o : obj V) (k : str) (v : V) : obj V :=
  match o with
  | [] => []
  | (k', v') :: o' =>
      if decide (k' = k) then (k', v) :: o' else (k', v') :: obj_update o' k v
  end.

(** [o[k] = v] *)
Definition obj_set {V} (o : obj V) (k : str) (v : V) : obj V :=
  if obj_has o k then obj_update o k v else obj_create o k v.

(** ** Untyped values, as found in a syntax tree *)

Inductive value :=
| VUndefined
| VNull
| VBool (b : bool)
| VNum (n : Z)
| VStr (s : str)
| VObject (props : obj value)
| VArray (items : list value).

Definition truthy (v : value) : bool :=
  match v with
  | VUndefined | VNull => false
  | VBool b => b
  | VNum n => negb (n =? 0)
  | VStr s => negb (bool_decide (s = []))
  | VObject _ | VArray _ => true
  end.

(** [v.k] for one of the property names read by the sources ([type],
    [callee], [name], [declaration], [program], [start], [end]); none of
    them exists on an array or on a primitive. *)
Definition get (v : value) (k : str) : completion value :=
  match v with
  | VUndefined | VNull => Throw JsTypeError
  | VObject props => Normal (default VUndefined (obj_get props k))
  | _ => Normal VUndefined
  end.

(** [a === b] against a string literal. *)
Definition is_string (v : value) (s : str) : bool :=
  match v with
  | VStr s' => bool_decide (s' = s)
  | _ => false
  end.

End JS.

(* ================================================================== *)
(** * The insertion-point rewriter ([./injection]) *)
(* ================================================================== *)

Module Injection.
Import JS.

Definition NodeMatcher := value -> completion value.
Definition NodeRewriter := str -> str.

(** The parser of [@babel/parser], an external collaborator: it returns
    the [File] node of the script or throws on a syntax error. *)
Record BabelParser := { parse : str -> completion value }.

(** [traverseAst]: the matches of the node itself and then of every
    property value, depth first.  The generator is consumed to its end
    by its only caller, so the sequence is materialised here. *)
Fixpoint traverseAst (matcher : NodeMatcher) (node : value)
  : completion (list value) :=
  let yield_match (m : value) := if truthy m then [m] else [] in
  match node with
  | VObject props =>
      m ← matcher node;
      rest ← (fix values (ps : obj value) : completion (list value) :=
                match ps with
                | [] => mret []
                | (_, v) :: ps' =>
                    here ← traverseAst matcher v;
                    there ← values ps';
                    mret (here ++ there)
                end) props;
      mret (yield_match m ++ rest)
  | VArray items =>
      m ← matcher node;
      rest ← (fix values (vs : list value) : completion (list value) :=
                match vs with
                | [] => mret []
                | v :: vs' =>
                    here ← traverseAst matcher v;
                    there ← values vs';
                    mret (here ++ there)
                end) items;
      mret (yield_match m ++ rest)
  | _ => mret []
  end.

(** [a && b] where [a] is a comparison. *)
Definition and_then (a : bool) (b : completion value) : completion value :=
  if a then b else mret (VBool false).

Definition matchFunctionCall (identifier : str) : NodeMatcher := fun node =>
  type ← get node (lit "type");
  and_then (is_string type (lit "CallExpression"))
    (callee ← get node (lit "callee");
     callee_type ← get callee (lit "type");
     and_then (is_string callee_type (lit "Identifier"))
       (callee ← get node (lit "callee");
        name ← get callee (lit "name");
        and_then (is_string name identifier) (mret node))).

Definition matchExportDefault : NodeMatcher := fun node =>
  type ← get node (lit "type");
  and_then (is_string type (lit "ExportDefaultDeclaration"))
    (get node (lit "declaration")).

(** A hook returns one statement or several. *)
Inductive HookResult :=
| Statement (s : str)
| Statements (ss : list str).

Definition Hook := str -> HookResult.

(** [.flat(Infinity)] on the statements returned by the hooks. *)
Definition flat (r : HookResult) : list str :=
  match r with
  | Statement s => [s]
  | Statements ss => ss
  end.

Definition nl : str := [ascii_of_N 10].

Definition rewriteAsIIFE (props : list (str * str)) (hooks : list Hook)
  : NodeRewriter :=
  if bool_decide (length props = 0%nat) && bool_decide (length hooks = 0%nat)
  then fun expr => expr
  else
    let propsToAssign :=
      join (lit ", ")
        (map (fun '(key, value) => join (lit ": ") [JSON_stringify key; value])
           props) in
    fun expr =>
      join nl
        ([lit "(() => {";
          lit "const sfc_main = /*#__PURE__*/ Object.assign(" ++ expr
            ++ lit ", { " ++ propsToAssign ++ lit " })"]
         ++ concat (map (fun f => flat (f (lit "sfc_main"))) hooks)
         ++ [lit "return sfc_main";
             lit "})()"]).

Record InsertionContext := { start : Z; end_ : Z }.

(** The [start] and [end] of a matched node.  Every node made by the
    parser carries both as numbers; the unchecked cast of the source
    has no counterpart for other values, which are rejected here. *)
Definition insertion_of (node : value) : completion InsertionContext :=
  s ← get node (lit "start");
  e ← get node (lit "end");
  match s, e with
  | VNum s, VNum e => mret {| start := s; end_ := e |}
  | _, _ => Throw (Foreign (lit "node without numeric start and end"))
  end.

Fixpoint insertions_of (nodes : list value)
  : completion (list InsertionContext) :=
  match nodes with
  | [] => mret []
  | node :: nodes' =>
      i ← insertion_of node;
      rest ← insertions_of nodes';
      mret (i :: rest)
  end.

(** The comparator [(a, b) => b.start - a.start] under the stable
    [Array.prototype.sort]: [a] stays ahead of a later [b] unless [b]
    starts further right. *)
Fixpoint insert_sorted (a : InsertionContext) (sorted : list InsertionContext)
  : list InsertionContext :=
  match sorted with
  | [] => [a]
  | b :: rest =>
      if start b - start a <=? 0 then a :: sorted
      else b :: insert_sorted a rest
  end.

Definition sort_by_start_desc (insertions : list InsertionContext)
  : list InsertionContext :=
  foldr insert_sorted [] insertions.

(** [JSON.stringify] of an insertion point and of a pair of them. *)
Definition insertion_json (i : InsertionContext) : str :=
  lit "{" ++ JSON_stringify (lit "start") ++ lit ":" ++ number_to_string (start i)
  ++ lit "," ++ JSON_stringify (lit "end") ++ lit ":" ++ number_to_string (end_ i)
  ++ lit "}".

Definition interlacing_error (prior later : InsertionContext) : exn :=
  JsError (lit "Interlacing insertion points: "
           ++ lit "[" ++ insertion_json prior ++ lit "," ++ insertion_json later
           ++ lit "]").

(** Lines 82-93: the check on adjacent pairs of the sorted array. *)
Fixpoint check_interlacing (insertions : list InsertionContext)
  : completion unit :=
  match insertions with
  | later :: (prior :: _) as rest =>
      if (start later <? end_ prior) && (end_ later >? start prior)
      then Throw (interlacing_error prior later)
      else check_interlacing rest
  | _ => mret tt
  end.

(** Lines 105-112: the pending insertion points, up to the first one
    that ends before [end], have their end moved by [delta]. *)
Fixpoint shift_enclosing (end' delta : Z) (others : list InsertionContext)
  : list InsertionContext :=
  match others with
  | [] => []
  | other :: rest =>
      if end_ other >=? end'
      then {| start := start other; end_ := end_ other + delta |}
             :: shift_enclosing end' delta rest
      else others
  end.

(** Lines 95-115: the rewriting loop. *)
Equations? rewrite_loop (rewriter : NodeRewriter) (script : str)
    (insertions : list InsertionContext) : str
  by wf (length insertions) lt :=
rewrite_loop rewriter script [] := script;
rewrite_loop rewriter script (insertion :: insertions) :=
  let content := slice script (start insertion) (end_ insertion) in
  let replacement := rewriter content in
  let delta := len replacement - len content in
  let insertions' := shift_enclosing (end_ insertion) delta insertions in
  rewrite_loop rewriter
    (join [] [slice script 0 (start insertion); replacement;
              slice_from script (end_ insertion)])
    insertions'.
Proof.
  assert (Hlen : forall l, length (shift_enclosing (end_ insertion) delta l)
                           = length l).
  { induction l as [|o l IH]; simpl; [reflexivity|].
    destruct (end_ o >=? end_ insertion); simpl; congruence. }
  subst insertions'. rewrite Hlen. simpl. lia.
Qed.

(** Lines 78-116 of [transformScript]: what is done with the collected
    insertion points. *)
Definition transform_insertions (script : str)
    (insertions : list InsertionContext) (rewriter : NodeRewriter)
  : completion (Z * str) :=
  let count := Z.of_nat (length insertions) in
  let insertions := sort_by_start_desc insertions in
  _ ← check_interlacing insertions;
  mret (count, rewrite_loop rewriter script insertions).

Section WithParser.
Context (babel : BabelParser).

(** Lines 71-77 of [transformScript]. *)
Definition find_insertions (script : str) (matcher : NodeMatcher)
  : completion (list InsertionContext) :=
  ast ← parse babel script;
  program ← get ast (lit "program");
  nodes ← traverseAst matcher program;
  insertions_of nodes.

Definition transformScript (script : str) (matcher : NodeMatcher)
    (rewriter : NodeRewriter) : completion (Z * str) :=
  insertions ← find_insertions script matcher;
  transform_insertions script insertions rewriter.

Definition injectIntoComponent (script : str) (props : list (str * str))
    (hooks : list Hook) : completion str :=
  let rewriter := rewriteAsIIFE props hooks in
  '(numInjections, injectedScript) ←
    transformScript script (matchFunctionCall (lit "defineComponent")) rewriter;
  if negb (numInjections =? 0) then mret injectedScript
  else
    '(numInjections, injectedScript) ←
      transformScript script matchExportDefault rewriter;
    if negb (numInjections =? 0) then mret injectedScript
    else mret (lit "export default " ++ rewriter (lit "{}")).

End WithParser.

End Injection.

(* ================================================================== *)
(** * The module assembler ([main.ts]) *)
(* ================================================================== *)

Module Main.
Import JS Injection.

(** ** Data consumed from the compiler and the bundler *)

(** [RawSourceMap] of the [source-map] package. *)
Record RawSourceMap := {
  sources : list str;
  sourcesContent : option (list str);
  mappings : str;
}.

(** The value of an attribute of a region: [string | true]. *)
Inductive AttrValue :=
| AttrTrue
| AttrString (s : str).

(** The [module] flag of a style region: [string | boolean]. *)
Inductive StyleModule :=
| ModuleFlag (b : bool)
| ModuleName (s : str).

(** A region of the document ([SFCBlock] and its refinements); [scoped]
    and [module] are present on style regions only. *)
Module Block.
Record t := {
  type : str;
  content : str;
  attrs : obj AttrValue;
  map : option RawSourceMap;
  lang : option str;
  src : option str;
  scoped : option bool;
  module : option StyleModule;
}.
End Block.

Module Descriptor.
Record t := {
  filename : str;
  id : str;
  template : option Block.t;
  script : option Block.t;
  scriptSetup : option Block.t;
  styles : list Block.t;
  customBlocks : list Block.t;
}.
End Descriptor.

(** [options.devServer.config.server.hmr] *)
Inductive HmrSetting :=
| HmrUndefined
| HmrBool (b : bool)
| HmrOptions.

(** [hmr !== false] *)
Definition hmr_enabled (setting : HmrSetting) : bool :=
  match setting with
  | HmrBool false => false
  | _ => true
  end.

Module Options.
Record t := {
  devServer : option HmrSetting;
  isProduction : bool;
  devToolsEnabled : bool;
  root : str;
  sourceMap : bool;
}.
End Options.

(** The two operations of the Rollup plugin context that are used. *)
Module PluginContext.
Record t (RollupError : Type) := {
  error : RollupError -> completion unit;
  (* the [id] of the resolution, when there is one *)
  resolve : str -> str -> completion (option str);
}.
Arguments error {RollupError}.
Arguments resolve {RollupError}.
End PluginContext.

(** A decoded mapping as presented by [eachMapping]. *)
Module EachMapping.
Record t := {
  generatedLine : Z;
  generatedColumn : Z;
  source : option str;
  originalLine : option Z;
  originalColumn : option Z;
  name : option str;
}.
End EachMapping.

(** The argument of [addMapping]. *)
Module Mapping.
Record t := {
  source : str;
  original : option Z * option Z;    (* line, column *)
  generated : Z * Z;                 (* line, column *)
}.
End Mapping.

(** [@jridgewell/gen-mapping] and [@jridgewell/trace-mapping]. *)
Record SourceMapLib := {
  GenMapping : Type;
  fromMap : RawSourceMap -> GenMapping;
  addMapping : GenMapping -> Mapping.t -> GenMapping;
  toEncodedMap : GenMapping -> RawSourceMap;
  (* the mappings visited by [eachMapping(new TraceMap(m), ...)] *)
  eachMapping : RawSourceMap -> list EachMapping.t;
}.

(** The other modules of the plugin and of its host that [main.ts]
    calls. *)
Record Collaborators := {
  CompilerError : Type;
  RollupError : Type;
  (* ./utils/descriptorCache *)
  getPrevDescriptor : str -> option Descriptor.t;
  createDescriptor :
    str -> str -> Options.t -> Descriptor.t * list CompilerError;
  getDescriptor : str -> Options.t -> completion unit;
  setSrcDescriptor : str -> Descriptor.t -> option bool -> completion unit;
  (* ./utils/error *)
  createRollupError : str -> CompilerError -> RollupError;
  (* ./script *)
  canInlineMain : Descriptor.t -> Options.t -> bool;
  isUseInlineTemplate : Descriptor.t -> bool -> bool;
  resolveScript :
    Descriptor.t -> Options.t -> bool -> completion (option Block.t);
  scriptIdentifier : str;
  (* ./template *)
  transformTemplateInMain :
    str -> Descriptor.t -> Options.t -> PluginContext.t RollupError -> bool
    -> completion (str * option RawSourceMap);
  (* ./handleHotUpdate *)
  isEqualBlock : option Block.t -> option Block.t -> bool;
  isOnlyTemplateChanged : Descriptor.t -> Descriptor.t -> bool;
  (* vite *)
  normalizePath : str -> str;
  transformWithEsbuild :
    str -> str -> bool -> option RawSourceMap
    -> completion (str * RawSourceMap);
  (* node:path, node:fs *)
  basename : str -> str;
  extname : str -> str;
  relative : str -> str -> str;
  existsSync : str -> bool;
}.

(** ** Truthiness and interpolation of the optional fields *)

Definition nonempty (s : str) : bool := negb (bool_decide (s = [])).

(** Truthiness of a [string | undefined]. *)
Definition given (s : option str) : bool :=
  match s with
  | Some s => nonempty s
  | None => false
  end.

(** [a || b] on two [string | undefined]. *)
Definition or_else (a b : option str) : option str :=
  if given a then a else b.

(** [`${s}`] for a [string | undefined]. *)
Definition interpolate (s : option str) : str :=
  match s with
  | Some s => s
  | None => lit "undefined"
  end.

Definition attr_truthy (v : AttrValue) : bool :=
  match v with
  | AttrTrue => true
  | AttrString s => nonempty s
  end.

Definition attr_string (v : AttrValue) : str :=
  match v with
  | AttrTrue => lit "true"
  | AttrString s => s
  end.

Definition module_truthy (m : option StyleModule) : bool :=
  match m with
  | None => false
  | Some (ModuleFlag b) => b
  | Some (ModuleName s) => nonempty s
  end.

Definition flag (b : option bool) : bool := default false b.

(** ** The query encoder *)

Definition ignoreList : list str :=
  [lit "id"; lit "index"; lit "src"; lit "type"; lit "lang"; lit "module";
   lit "scoped"; lit "generic"].

Definition includes (l : list str) (s : str) : bool := bool_decide (s ∈ l).

(** The text appended for one attribute (lines 496-498). *)
Definition attr_param (entry : str * AttrValue) : str :=
  let '(name, value) := entry in
  lit "&" ++ encodeURIComponent name
  ++ (if attr_truthy value
      then lit "=" ++ encodeURIComponent (attr_string value)
      else []).

(** One round of the loop over the attributes. *)
Definition append_attr (query : str) (entry : str * AttrValue) : str :=
  if negb (includes ignoreList (fst entry))
  then query ++ attr_param entry
  else query.

Definition attrsToQuery (attrs : obj AttrValue) (langFallback : option str)
    (forceLangFallback : bool) : str :=
  let query := foldl append_attr [] attrs in
  let attrs_lang := obj_get attrs (lit "lang") in
  if given langFallback || from_option attr_truthy false attrs_lang
  then
    query ++
      (if obj_has attrs (lit "lang")
       then if forceLangFallback
            then lit "&lang." ++ interpolate langFallback
            else lit "&lang." ++ interpolate (attr_string <$> attrs_lang)
       else lit "&lang." ++ interpolate langFallback)
  else query.

(** ** Code generation for the regions *)

(** The characters that [.] does not match. *)
Definition line_terminator (c : ascii) : bool :=
  bool_decide (c = ascii_of_N 10) || bool_decide (c = ascii_of_N 13).

(** [s.replace(/\?.*$/, '')]: the text is cut at the first question mark
    that no line terminator follows. *)
Fixpoint strip_query (s : str) : str :=
  match s with
  | [] => []
  | c :: rest =>
      if bool_decide (c = "?"%char)
         && forallb (fun c => negb (line_terminator c)) rest
      then []
      else c :: strip_query rest
  end.

(** [\w] *)
Definition word_char (c : ascii) : bool :=
  let n := N_of_ascii c in
  ((65 <=? n) && (n <=? 90) || (97 <=? n) && (n <=? 122)
   || (48 <=? n) && (n <=? 57) || (n =? 95))%N.

(** [request.replace(/\.(\w+)$/, '.module.$1')] *)
Fixpoint insert_module (request : str) : str :=
  match request with
  | [] => []
  | c :: rest =>
      if bool_decide (c = "."%char) && nonempty rest && forallb word_char rest
      then lit ".module." ++ rest
      else c :: insert_module rest
  end.

Definition genCSSModulesCode (index : Z) (request : str)
    (moduleName : StyleModule) : str * obj str :=
  let styleVar := lit "style" ++ number_to_string index in
  let exposedName :=
    match moduleName with
    | ModuleName s => s
    | ModuleFlag _ => lit "$style"
    end in
  let moduleRequest := insert_module request in
  (nl ++ lit "import " ++ styleVar ++ lit " from " ++ JSON_stringify moduleRequest,
   [(exposedName, styleVar)]).

(** [Object.assign(target, source)] *)
Definition Object_assign {V} (target source : obj V) : obj V :=
  foldl (fun o '(k, v) => obj_set o k v) target source.

(** [scriptCode.match(/\r?\n/g)], with the empty array for [null]. *)
Fixpoint match_line_breaks (s : str) : list str :=
  match s with
  | [] => []
  | c :: rest =>
      if bool_decide (c = ascii_of_N 13)
      then match rest with
           | c' :: rest' =>
               if bool_decide (c' = ascii_of_N 10)
               then [c; c'] :: match_line_breaks rest'
               else match_line_breaks rest
           | [] => []
           end
      else if bool_decide (c = ascii_of_N 10)
      then [c] :: match_line_breaks rest
      else match_line_breaks rest
  end.

(** Line 187. *)
Definition template_offset (scriptCode : str) : Z :=
  Z.of_nat (length (match_line_breaks scriptCode)) + 1.

(** Lines 189-197: the mapping that the callback hands to [addMapping],
    if it does not return early. *)
Definition template_mapping (offset : Z) (m : EachMapping.t)
  : option Mapping.t :=
  match EachMapping.source m with
  | None => None
  | Some source =>
      Some {| Mapping.source := source;
              Mapping.original :=
                (EachMapping.originalLine m, EachMapping.originalColumn m);
              Mapping.generated :=
                (EachMapping.generatedLine m + offset,
                 EachMapping.generatedColumn m) |}
  end.

(** The [map] of the result: a source map or [{ mappings: '' }]. *)
Inductive ResultMap :=
| EncodedMap (m : RawSourceMap)
| NoMappings.

Module TransformResult.
Record t := {
  code : str;
  map : ResultMap;
  lang : str;          (* meta.vite.lang *)
}.
End TransformResult.

(** [errors.forEach(f)] *)
Fixpoint for_each {A} (f : A -> completion unit) (l : list A)
  : completion unit :=
  match l with
  | [] => mret tt
  | x :: l' => _ ← f x; for_each f l'
  end.

(** The hook that records the component for hot reloading. *)
Definition hmr_hook : Hook := fun expr =>
  Statement
    (lit "typeof __VUE_HMR_RUNTIME__ !== 'undefined' && "
     ++ lit "__VUE_HMR_RUNTIME__.createRecord(" ++ expr ++ lit ".__hmrId, "
     ++ expr ++ lit ")").

Definition hmr_accept : list str :=
  [lit "import.meta.hot.accept(mod => {";
   lit "  if (!mod) return";
   lit "  const { default: updated, _rerender_only } = mod";
   lit "  if (_rerender_only) {";
   lit "    __VUE_HMR_RUNTIME__.rerender(updated.__hmrId, updated.render)";
   lit "  } else {";
   lit "    __VUE_HMR_RUNTIME__.reload(updated.__hmrId, updated)";
   lit "  }";
   lit "})"].

(** The hook that wraps [setup] to register the module during
    server-side rendering. *)
Definition ssr_hook (normalizedFilename : str) : Hook := fun expr =>
  Statements
    [lit "const { setup } = " ++ expr;
     expr ++ lit ".setup = (props, ctx) => {";
     lit "  const ssrContext = __vite_useSSRContext()";
     lit "  ;(ssrContext.modules || (ssrContext.modules = new Set())).add("
       ++ JSON_stringify normalizedFilename ++ lit ")";
     lit "  return setup ? setup(props, ctx) : undefined";
     lit "}"].

Section WithCollaborators.
Context (babel : BabelParser) (maps : SourceMapLib) (host : Collaborators).

Abbreviation Context_t := (PluginContext.t (RollupError host)).

Definition linkSrcToDescriptor (src : str) (descriptor : Descriptor.t)
    (pluginContext : Context_t) (scoped : option bool) : completion unit :=
  resolved ← PluginContext.resolve pluginContext src
               (Descriptor.filename descriptor);
  let srcFile := default src (or_else resolved (Some src)) in
  setSrcDescriptor host (strip_query srcFile) descriptor scoped.

(** [if (block.src) await linkSrcToDescriptor(block.src, ...)] *)
Definition link_if_src (block_src : option str) (descriptor : Descriptor.t)
    (pluginContext : Context_t) (scoped : option bool) : completion unit :=
  if given block_src
  then linkSrcToDescriptor (interpolate block_src) descriptor pluginContext
         scoped
  else mret tt.

(** [descriptor.styles.some((s) => s.scoped)] *)
Definition some_scoped (descriptor : Descriptor.t) : bool :=
  existsb (fun s => flag (Block.scoped s)) (Descriptor.styles descriptor).

Definition genTemplateCode (descriptor : Descriptor.t) (options : Options.t)
    (pluginContext : Context_t) (ssr : bool)
  : completion (str * option RawSourceMap) :=
  match Descriptor.template descriptor with
  | None => Throw JsTypeError
  | Some template =>
      let hasScoped := some_scoped descriptor in
      if (negb (given (Block.lang template))
          || bool_decide (Block.lang template = Some (lit "html")))
         && negb (given (Block.src template))
      then transformTemplateInMain host (Block.content template) descriptor
             options pluginContext ssr
      else
        _ ← link_if_src (Block.src template) descriptor pluginContext
              (Some hasScoped);
        let src :=
          default (Descriptor.filename descriptor)
            (or_else (Block.src template)
               (Some (Descriptor.filename descriptor))) in
        let srcQuery :=
          if given (Block.src template)
          then if hasScoped then lit "&src=" ++ Descriptor.id descriptor
               else lit "&src=true"
          else [] in
        let scopedQuery :=
          if hasScoped then lit "&scoped=" ++ Descriptor.id descriptor
          else [] in
        let attrsQuery :=
          attrsToQuery (Block.attrs template) (Some (lit "js")) true in
        let query :=
          lit "?vue&type=template" ++ srcQuery ++ scopedQuery ++ attrsQuery in
        let request := JSON_stringify (src ++ query) in
        let renderFnName := if ssr then lit "ssrRender" else lit "render" in
        mret (lit "import { " ++ renderFnName ++ lit " as _sfc_" ++ renderFnName
              ++ lit " } from " ++ request,
              None)
  end.

Definition genScriptCode (descriptor : Descriptor.t) (options : Options.t)
    (pluginContext : Context_t) (ssr : bool)
  : completion (str * option RawSourceMap) :=
  let scriptCode := lit "const " ++ scriptIdentifier host ++ lit " = {}" in
  script ← resolveScript host descriptor options ssr;
  match script with
  | None => mret (scriptCode, None)
  | Some script =>
      if canInlineMain host descriptor options
      then mret (Block.content script, Block.map script)
      else
        _ ← link_if_src (Block.src script) descriptor pluginContext
              (Some false);
        let src :=
          default (Descriptor.filename descriptor)
            (or_else (Block.src script)
               (Some (Descriptor.filename descriptor))) in
        let langFallback :=
          or_else
            (if given (Block.src script)
             then Some (slice_from (extname host src) 1)
             else Block.src script)
            (Some (lit "js")) in
        let attrsQuery := attrsToQuery (Block.attrs script) langFallback false in
        let srcQuery :=
          if given (Block.src script) then lit "&src=true" else [] in
        let query := lit "?vue&type=script" ++ srcQuery ++ attrsQuery in
        let request := JSON_stringify (src ++ query) in
        mret (join nl [lit "import sfc_main from " ++ request;
                       lit "export * from " ++ request;
                       lit "export default sfc_main"],
              None)
  end.

(** Lines 364-376 of [genStyleCode]: the request of the style region at
    index [i]. *)
Definition styleRequest (descriptor : Descriptor.t) (asCustomElement : bool)
    (i : Z) (style : Block.t) : str :=
  let src :=
    default (Descriptor.filename descriptor)
      (or_else (Block.src style) (Some (Descriptor.filename descriptor))) in
  let attrsQuery := attrsToQuery (Block.attrs style) (Some (lit "css")) false in
  let srcQuery :=
    if given (Block.src style)
    then if flag (Block.scoped style)
         then lit "&src=" ++ Descriptor.id descriptor
         else lit "&src=true"
    else [] in
  let directQuery := if asCustomElement then lit "&inline" else [] in
  let scopedQuery :=
    if flag (Block.scoped style)
    then lit "&scoped=" ++ Descriptor.id descriptor
    else [] in
  let query :=
    lit "?vue&type=style&index=" ++ number_to_string i ++ srcQuery
    ++ directQuery ++ scopedQuery in
  src ++ query ++ attrsQuery.

Definition custom_element_error : exn :=
  JsError (lit "<style module> is not supported in custom elements mode.").

(** Lines 354-400 of [genStyleCode]: the loop over the style regions,
    from index [i] on, threading [stylesCode] and [cssModulesMap]. *)
Fixpoint style_loop (descriptor : Descriptor.t) (pluginContext : Context_t)
    (asCustomElement : bool) (i : Z) (styles : list Block.t)
    (stylesCode : str) (cssModulesMap : option (obj str))
  : completion (str * option (obj str)) :=
  match styles with
  | [] => mret (stylesCode, cssModulesMap)
  | style :: styles' =>
      _ ← link_if_src (Block.src style) descriptor pluginContext
            (Block.scoped style);
      let request := styleRequest descriptor asCustomElement i style in
      let plain_import :=
        if asCustomElement
        then nl ++ lit "import _style_" ++ number_to_string i ++ lit " from "
             ++ JSON_stringify request
        else nl ++ lit "import " ++ JSON_stringify request in
      '(stylesCode, cssModulesMap) ←
        match Block.module style with
        | Some moduleName =>
            if module_truthy (Some moduleName)
            then
              if asCustomElement then Throw custom_element_error
              else
                let '(importCode, nameMap) :=
                  genCSSModulesCode i request moduleName in
                mret (stylesCode ++ importCode,
                      Some (Object_assign (default [] cssModulesMap) nameMap))
            else mret (stylesCode ++ plain_import, cssModulesMap)
        | None => mret (stylesCode ++ plain_import, cssModulesMap)
        end;
      style_loop descriptor pluginContext asCustomElement (i + 1) styles'
        stylesCode cssModulesMap
  end.

(** [descriptor.styles.map((_, i) => `_style_${i}`)] *)
Definition style_names (styles : list Block.t) : list str :=
  imap (fun i _ => lit "_style_" ++ number_to_string (Z.of_nat i)) styles.

(** [genStyleCode]; the properties pushed onto [attachedProps] are
    returned as the extended array. *)
Definition genStyleCode (descriptor : Descriptor.t)
    (pluginContext : Context_t) (asCustomElement : bool)
    (attachedProps : list (str * str)) : completion (str * list (str * str)) :=
  let styles := Descriptor.styles descriptor in
  '(stylesCode, cssModulesMap, attachedProps) ←
    (if negb (bool_decide (length styles = 0%nat))
     then
       '(stylesCode, cssModulesMap) ←
         style_loop descriptor pluginContext asCustomElement 0 styles [] None;
       mret (stylesCode, cssModulesMap,
             if asCustomElement
             then attachedProps ++
                  [(lit "styles",
                    lit "[" ++ join (lit ",") (style_names styles) ++ lit "]")]
             else attachedProps)
     else mret ([], None, attachedProps));
  match cssModulesMap with
  | Some cssModulesMap =>
      let mappingCode :=
        foldl (fun code '(key, value) =>
                 code ++ [ascii_of_N 34] ++ key ++ [ascii_of_N 34] ++ lit ":"
                 ++ value ++ lit "," ++ nl)
          (lit "{" ++ nl) cssModulesMap
        ++ lit "}" in
      mret (stylesCode ++ nl ++ lit "const cssModules = " ++ mappingCode,
            attachedProps ++ [(lit "__cssModules", lit "cssModules")])
  | None => mret (stylesCode, attachedProps)
  end.

(** The loop of [genCustomBlockCode], from index [index] on. *)
Fixpoint custom_block_loop (descriptor : Descriptor.t)
    (pluginContext : Context_t) (index : Z) (blocks : list Block.t)
    (code : str) : completion str :=
  match blocks with
  | [] => mret code
  | block :: blocks' =>
      _ ← link_if_src (Block.src block) descriptor pluginContext (Some false);
      let src :=
        default (Descriptor.filename descriptor)
          (or_else (Block.src block) (Some (Descriptor.filename descriptor))) in
      let attrsQuery :=
        attrsToQuery (Block.attrs block) (Some (Block.type block)) false in
      let srcQuery := if given (Block.src block) then lit "&src=true" else [] in
      let query :=
        lit "?vue&type=" ++ Block.type block ++ lit "&index="
        ++ number_to_string index ++ srcQuery ++ attrsQuery in
      let request := JSON_stringify (src ++ query) in
      let block_i := lit "block" ++ number_to_string index in
      let code :=
        code ++ lit "import " ++ block_i ++ lit " from " ++ request ++ nl in
      let code :=
        code ++ lit "if (typeof " ++ block_i ++ lit " === 'function') "
        ++ block_i ++ lit "(_sfc_main)" ++ nl in
      custom_block_loop descriptor pluginContext (index + 1) blocks' code
  end.

Definition genCustomBlockCode (descriptor : Descriptor.t)
    (pluginContext : Context_t) : completion str :=
  custom_block_loop descriptor pluginContext 0
    (Descriptor.customBlocks descriptor) [].

(** ** Source maps *)

(** Lines 188-198: the callback given to [eachMapping]. *)
Definition add_template_mapping (offset : Z) (gen : GenMapping maps)
    (m : EachMapping.t) : GenMapping maps :=
  match template_mapping offset m with
  | None => gen
  | Some mapping => addMapping maps gen mapping
  end.

(** Lines 172-212. *)
Definition resolve_map (options : Options.t) (scriptCode : str)
    (scriptMap templateMap : option RawSourceMap) : option RawSourceMap :=
  if Options.sourceMap options
  then
    match scriptMap, templateMap with
    | Some scriptMap, Some templateMap =>
        let gen := fromMap maps scriptMap in
        let offset := template_offset scriptCode in
        let gen :=
          foldl (add_template_mapping offset) gen
            (eachMapping maps templateMap) in
        let resolvedMap := toEncodedMap maps gen in
        Some {| sources := sources resolvedMap;
                sourcesContent := sourcesContent templateMap;
                mappings := mappings resolvedMap |}
    | Some scriptMap, None => Some scriptMap
    | None, _ => templateMap
    end
  else None.

(** ** The pipeline *)

(** Lines 217-250: the optional lowering and the returned value. *)
Definition lower_and_return (descriptor : Descriptor.t) (filename : str)
    (options : Options.t) (resolvedCode : str)
    (resolvedMap : option RawSourceMap) : completion TransformResult.t :=
  let script_lang := Descriptor.script descriptor ≫= Block.lang in
  let setup_lang := Descriptor.scriptSetup descriptor ≫= Block.lang in
  let script_src := Descriptor.script descriptor ≫= Block.src in
  let lang := or_else setup_lang script_lang in
  '(resolvedCode, resolvedMap) ←
    (if given lang
        && (ends_with (lit "ts") (interpolate lang)
            || ends_with (lit "tsx") (interpolate lang))
        && negb (given script_src)
     then
       '(code, map) ←
         transformWithEsbuild host resolvedCode filename
           (Options.sourceMap options) resolvedMap;
       mret (code, match resolvedMap with
                   | Some _ => Some map
                   | None => None
                   end)
     else mret (resolvedCode, resolvedMap));
  mret {| TransformResult.code := resolvedCode;
          TransformResult.map :=
            match resolvedMap with
            | Some m => EncodedMap m
            | None => NoMappings
            end;
          TransformResult.lang :=
            interpolate
              (or_else (or_else script_lang setup_lang) (Some (lit "js"))) |}.

(** Lines 38-218 of [transformMain]: the descriptor with the assembled
    text and its map, or [None] where the source returns [null]. *)
Definition assemble (code filename : str) (options : Options.t)
    (pluginContext : Context_t) (ssr asCustomElement : bool)
  : completion (option (Descriptor.t * str * option RawSourceMap)) :=
  let devServer := Options.devServer options in
  let isProduction := Options.isProduction options in
  let devToolsEnabled := Options.devToolsEnabled options in
  let prevDescriptor := getPrevDescriptor host filename in
  let '(descriptor, errors) := createDescriptor host filename code options in
  _ ← (if existsSync host filename
       then getDescriptor host filename options
       else mret tt);
  if negb (bool_decide (length errors = 0%nat))
  then
    _ ← for_each
          (fun error =>
             PluginContext.error pluginContext
               (createRollupError host filename error))
          errors;
    mret None
  else
    (* feature information *)
    let attachedProps : list (str * str) := [] in
    let hasScoped := some_scoped descriptor in
    (* script *)
    '(scriptCode, scriptMap) ←
      genScriptCode descriptor options pluginContext ssr;
    (* template *)
    let hasTemplateImport :=
      match Descriptor.template descriptor with
      | Some _ => negb (isUseInlineTemplate host descriptor
                          (negb (bool_decide (is_Some devServer))))
      | None => false
      end in
    '(templateCode, templateMap) ←
      (if hasTemplateImport
       then genTemplateCode descriptor options pluginContext ssr
       else mret ([], None));
    let attachedProps :=
      if hasTemplateImport
      then attachedProps ++
           [if ssr then (lit "ssrRender", lit "_sfc_ssrRender")
            else (lit "render", lit "_sfc_render")]
      else
        match prevDescriptor with
        | Some prevDescriptor =>
            if negb (isEqualBlock host (Descriptor.template descriptor)
                       (Descriptor.template prevDescriptor))
            then attachedProps ++
                 [(if ssr then lit "ssrRender" else lit "render",
                   lit "() => {}")]
            else attachedProps
        | None => attachedProps
        end in
    (* styles *)
    '(stylesCode, attachedProps) ←
      genStyleCode descriptor pluginContext asCustomElement attachedProps;
    (* custom blocks *)
    customBlocksCode ← genCustomBlockCode descriptor pluginContext;
    let output := [templateCode; stylesCode; customBlocksCode] in
    let attachedHooks : list Hook := [] in
    let attachedProps :=
      if hasScoped
      then attachedProps ++
           [(lit "__scopeId",
             JSON_stringify (lit "data-v-" ++ Descriptor.id descriptor))]
      else attachedProps in
    let attachedProps :=
      if devToolsEnabled
         || (bool_decide (is_Some devServer) && negb isProduction)
      then attachedProps ++
           [(lit "__file",
             JSON_stringify
               (if isProduction then basename host filename else filename))]
      else attachedProps in
    (* HMR *)
    let hmr :=
      match devServer with
      | Some setting =>
          hmr_enabled setting && negb ssr && negb isProduction
      | None => false
      end in
    let attachedProps :=
      if hmr
      then attachedProps ++
           [(lit "__hmrId", JSON_stringify (Descriptor.id descriptor))]
      else attachedProps in
    let attachedHooks :=
      if hmr then attachedHooks ++ [hmr_hook] else attachedHooks in
    let output :=
      if hmr
      then
        (match prevDescriptor with
         | Some prevDescriptor =>
             if isOnlyTemplateChanged host prevDescriptor descriptor
             then output ++ [lit "export const _rerender_only = true"]
             else output
         | None => output
         end) ++ hmr_accept
      else output in
    (* SSR module registration by wrapping user setup *)
    let normalizedFilename :=
      normalizePath host (relative host (Options.root options) filename) in
    let output :=
      if ssr
      then lit "import { useSSRContext as __vite_useSSRContext } from 'vue'"
           :: output
      else output in
    let attachedHooks :=
      if ssr then attachedHooks ++ [ssr_hook normalizedFilename]
      else attachedHooks in
    let resolvedMap := resolve_map options scriptCode scriptMap templateMap in
    (* Inject attached props and hooks into script code *)
    injected ← injectIntoComponent babel scriptCode attachedProps attachedHooks;
    let output := output ++ [injected] in
    let resolvedCode := join nl output in
    mret (Some (descriptor, resolvedCode, resolvedMap)).

Definition transformMain (code filename : str) (options : Options.t)
    (pluginContext : Context_t) (ssr asCustomElement : bool)
  : completion (option TransformResult.t) :=
  assembled ←
    assemble code filename options pluginContext ssr asCustomElement;
  match assembled with
  | None => mret None
  | Some (descriptor, resolvedCode, resolvedMap) =>
      result ← lower_and_return descriptor filename options resolvedCode
                 resolvedMap;
      mret (Some result)
  end.

End WithCollaborators.

End Main.

(* ================================================================== *)
(** * Notions used to state the properties *)
(* ================================================================== *)

Module Notions.
Import JS Injection Main.

(** An insertion point is the span of a call expression or of a
    declaration: a non-empty range of the script text. *)
Definition nonempty_range (r : InsertionContext) : Prop :=
  start r < end_ r.

Definition within (script : str) (r : InsertionContext) : Prop :=
  0 <= start r /\ start r < end_ r /\ end_ r <= len script.

(** [inner] lies inside [outer]. *)
Definition contains (outer inner : InsertionContext) : Prop :=
  start outer <= start inner /\ end_ inner <= end_ outer.

(** [a] and [b] overlap and neither contains the other; [a] is the one
    that starts first. *)
Definition interlace (a b : InsertionContext) : Prop :=
  start a < start b /\ start b < end_ a /\ end_ a < end_ b.

(** The order of the sorted array: later entries start no further
    right. *)
Definition starts_after (a b : InsertionContext) : Prop :=
  start b <= start a.

(** [a] lies entirely to the right of [b]. *)
Definition right_of (a b : InsertionContext) : Prop :=
  end_ b <= start a.

(** The order of the reference implementation. *)
Definition starts_before (a b : InsertionContext) : Prop :=
  start a <= start b.

Global Instance starts_before_dec a b : Decision (starts_before a b).
Proof. unfold starts_before. apply _. Defined.

Global Instance starts_before_trans : Transitive starts_before.
Proof. unfold starts_before. intros a b c. lia. Qed.

Global Instance starts_before_total : Total starts_before.
Proof. unfold starts_before. intros a b. lia. Qed.

(** The reference implementation: one pass from left to right over the
    ranges in ascending order, copying the text between them and
    splicing in the rewritten text of each. *)
Fixpoint build (rewriter : NodeRewriter) (script : str) (pos : Z)
    (ranges : list InsertionContext) : str :=
  match ranges with
  | [] => slice_from script pos
  | r :: ranges' =>
      slice script pos (start r)
      ++ rewriter (slice script (start r) (end_ r))
      ++ build rewriter script (end_ r) ranges'
  end.

Definition reference_rewrite (rewriter : NodeRewriter) (script : str)
    (insertions : list InsertionContext) : str :=
  build rewriter script 0 (merge_sort starts_before insertions).

(** The number of line breaks of a text: each ends in a line feed,
    with or without a carriage return before it. *)
Definition line_breaks (s : str) : Z :=
  Z.of_nat (length (filter (fun c => c = ascii_of_N 10) s)).

(** A template mapping with its generated line moved down by [shift]
    lines; a mapping without source has no counterpart. *)
Definition moved_down (shift : Z) (m : EachMapping.t) : option Mapping.t :=
  source ← EachMapping.source m;
  Some {| Mapping.source := source;
          Mapping.original :=
            (EachMapping.originalLine m, EachMapping.originalColumn m);
          Mapping.generated :=
            (EachMapping.generatedLine m + shift,
             EachMapping.generatedColumn m) |}.

(** Linking the external source of a style region, if it has one,
    succeeds. *)
Definition links_source (host : Collaborators) (descriptor : Descriptor.t)
    (pluginContext : PluginContext.t (RollupError host)) (style : Block.t)
  : Prop :=
  link_if_src host (Block.src style) descriptor pluginContext
    (Block.scoped style) = Normal tt.

(** The style region has the CSS-module flag set. *)
Definition css_module (style : Block.t) : Prop :=
  module_truthy (Block.module style) = true.

(** The attributes that the query encoder echoes: those whose name is
    not reserved. *)
Definition echoed (attrs : obj AttrValue) : obj AttrValue :=
  filter (fun entry => fst entry ∉ ignoreList) attrs.

(** The node is a call whose callee is the identifier [identifier]. *)
Definition is_call_to (identifier : str) (node : value) : Prop :=
  exists props callee,
    node = VObject props
    /\ obj_get props (lit "type") = Some (VStr (lit "CallExpression"))
    /\ obj_get props (lit "callee") = Some callee
    /\ get callee (lit "type") = Normal (VStr (lit "Identifier"))
    /\ get callee (lit "name") = Normal (VStr identifier).

(** Two ranges that do not overlap. *)
Definition apart (a b : InsertionContext) : Prop :=
  end_ a <= start b \/ end_ b <= start a.

(** The insertion points that start at [k], in the order of the array. *)
Definition starting_at (k : Z) (l : list InsertionContext)
  : list InsertionContext :=
  filter (fun r => start r = k) l.

(** The change of length that rewriting the ranges brings: for each
    range, the length of the rewritten text less the width of the
    range. *)
Fixpoint total_delta (rewriter : NodeRewriter) (script : str)
    (l : list InsertionContext) : Z :=
  match l with
  | [] => 0
  | r :: l' =>
      len (rewriter (slice script (start r) (end_ r))) - (end_ r - start r)
      + total_delta rewriter script l'
  end.


(** The language tag of the request of a style region: the [lang]
    attribute if there is one, [css] otherwise. *)
Definition style_language (style : Block.t) : str :=
  match obj_get (Block.attrs style) (lit "lang") with
  | Some value => attr_string value
  | None => lit "css"
  end.

(** The import of the style region at index [i] that is not a CSS
    module. *)
Definition plain_style_import (descriptor : Descriptor.t)
    (asCustomElement : bool) (i : nat) (style : Block.t) : str :=
  nl
  ++ (if asCustomElement
      then lit "import _style_" ++ number_to_string (Z.of_nat i) ++ lit " from "
      else lit "import ")
  ++ JSON_stringify (styleRequest descriptor asCustomElement (Z.of_nat i) style).

(** The two lines generated for the custom region at index [i] of a
    document, when the region has no external source. *)
Definition custom_block_lines (descriptor : Descriptor.t) (i : nat)
    (block : Block.t) : str :=
  let name := lit "block" ++ number_to_string (Z.of_nat i) in
  lit "import " ++ name ++ lit " from "
  ++ JSON_stringify
       (Descriptor.filename descriptor ++ lit "?vue&type=" ++ Block.type block
        ++ lit "&index=" ++ number_to_string (Z.of_nat i)
        ++ attrsToQuery (Block.attrs block) (Some (Block.type block)) false)
  ++ nl
  ++ lit "if (typeof " ++ name ++ lit " === 'function') " ++ name
  ++ lit "(_sfc_main)" ++ nl.

End Notions.

(* ================================================================== *)
(** * Sample inputs *)
(* ================================================================== *)

Module Samples.
Import JS Injection Main.

(** A parser that knows the syntax tree of the listed scripts and
    rejects every other text. *)
Definition parser_of (known : obj value) : BabelParser :=
  {| parse := fun script =>
       match obj_get known script with
       | Some ast => Normal ast
       | None => Throw (Foreign (lit "SyntaxError"))
       end |}.

(** A node as the parser makes it: [type], [start], [end], then the
    fields of its kind. *)
Definition node (type : string) (s e : Z) (fields : obj value) : value :=
  VObject ([(lit "type", VStr (lit type));
            (lit "start", VNum s);
            (lit "end", VNum e)] ++ fields).

Definition file (e : Z) (body : list value) : value :=
  node "File" 0 e
    [(lit "errors", VArray []);
     (lit "program",
      node "Program" 0 e
        [(lit "sourceType", VStr (lit "module"));
         (lit "interpreter", VNull);
         (lit "body", VArray body);
         (lit "directives", VArray [])]);
     (lit "comments", VArray [])].

Definition identifier (s e : Z) (name : string) : value :=
  node "Identifier" s e [(lit "name", VStr (lit name))].

Definition call (s e : Z) (callee : value) (arguments : list value) : value :=
  node "CallExpression" s e
    [(lit "callee", callee); (lit "arguments", VArray arguments)].

(** [defineComponent(defineComponent())]: the outer call spans the whole
    text, the inner call is its argument. *)
Definition nested_script : str := lit "defineComponent(defineComponent())".

Definition nested_ast : value :=
  file 34
    [node "ExpressionStatement" 0 34
       [(lit "expression",
         call 0 34 (identifier 0 15 "defineComponent")
           [call 16 33 (identifier 16 31 "defineComponent") []])]].

(** [import './polyfill']: a script with neither a call to
    [defineComponent] nor a default export. *)
Definition polyfill_script : str := lit "import './polyfill'".

Definition polyfill_ast : value :=
  file 19
    [node "ImportDeclaration" 0 19
       [(lit "specifiers", VArray []);
        (lit "source",
         node "StringLiteral" 7 19 [(lit "value", VStr (lit "./polyfill"))])]].

(** [f(1);f(2)]: two calls side by side. *)
Definition two_calls_script : str := lit "f(1);f(2)".

(** A rewriter that wraps the expression in a call. *)
Definition wrap : NodeRewriter := fun expr => lit "wrap(" ++ expr ++ lit ")".

(** [export default {}]: the declaration spans the last two characters. *)
Definition default_export_script : str := lit "export default {}".

Definition default_export_ast : value :=
  file 17
    [node "ExportDefaultDeclaration" 0 17
       [(lit "declaration",
         node "ObjectExpression" 15 17 [(lit "properties", VArray [])])]].

(** [const _sfc_main = {}]: the script made up for a document that has
    none. *)
Definition no_script : str := lit "const _sfc_main = {}".

Definition no_script_ast : value :=
  file 20
    [node "VariableDeclaration" 0 20
       [(lit "declarations",
         VArray
           [node "VariableDeclarator" 6 20
              [(lit "id", identifier 6 15 "_sfc_main");
               (lit "init",
                node "ObjectExpression" 18 20
                  [(lit "properties", VArray [])])]]);
        (lit "kind", VStr (lit "const"))]].

Definition sample_parser : BabelParser :=
  parser_of [(nested_script, nested_ast); (polyfill_script, polyfill_ast);
             (default_export_script, default_export_ast);
             (no_script, no_script_ast)].

(** Regions and documents. *)
Definition script_block (lang : option str) (content : str) : Block.t :=
  {| Block.type := lit "script"; Block.content := content;
     Block.attrs := []; Block.map := None; Block.lang := lang;
     Block.src := None; Block.scoped := None; Block.module := None |}.

Definition style_block (attrs : obj AttrValue) (scoped : option bool)
    (module : option StyleModule) : Block.t :=
  {| Block.type := lit "style"; Block.content := lit "a { color: red }";
     Block.attrs := attrs; Block.map := None; Block.lang := None;
     Block.src := None; Block.scoped := scoped; Block.module := module |}.

Definition document (script scriptSetup : option Block.t)
    (styles : list Block.t) : Descriptor.t :=
  {| Descriptor.filename := lit "/src/App.vue";
     Descriptor.id := lit "7ba5bd90";
     Descriptor.template := None;
     Descriptor.script := script;
     Descriptor.scriptSetup := scriptSetup;
     Descriptor.styles := styles;
     Descriptor.customBlocks := [] |}.

(** [<style scoped>] *)
Definition scoped_style : Block.t :=
  style_block [(lit "scoped", AttrTrue)] (Some true) None.

(** [<style module>] *)
Definition module_style : Block.t :=
  style_block [(lit "module", AttrTrue)] None (Some (ModuleFlag true)).

(** A document whose plain script is JavaScript and whose setup script
    is TypeScript. *)
Definition mixed_document : Descriptor.t :=
  document (Some (script_block (Some (lit "js")) default_export_script))
    (Some (script_block (Some (lit "ts")) [])) [].

Definition empty_map : RawSourceMap :=
  {| sources := []; sourcesContent := None; mappings := [] |}.

(** Stand-ins for the collaborators: a compiler that returns the given
    descriptor without errors and its plain script as the resolved
    script, a cache that accepts every write, and a lowering step that
    marks the text it is given. *)
Definition host_of (descriptor : Descriptor.t) : Collaborators :=
  {| CompilerError := str;
     RollupError := str;
     getPrevDescriptor := fun _ => None;
     createDescriptor := fun _ _ _ => (descriptor, []);
     getDescriptor := fun _ _ => Normal tt;
     setSrcDescriptor := fun _ _ _ => Normal tt;
     createRollupError := fun _ e => e;
     canInlineMain := fun _ _ => true;
     isUseInlineTemplate := fun _ _ => false;
     resolveScript := fun d _ _ => Normal (Descriptor.script d);
     scriptIdentifier := lit "_sfc_main";
     transformTemplateInMain := fun content _ _ _ _ => Normal (content, None);
     isEqualBlock := fun _ _ => true;
     isOnlyTemplateChanged := fun _ _ => false;
     normalizePath := fun p => p;
     transformWithEsbuild := fun code _ _ _ =>
       Normal (lit "/* lowered */" ++ nl ++ code, empty_map);
     basename := fun p => p;
     extname := fun _ => lit ".js";
     relative := fun _ p => p;
     existsSync := fun _ => false |}.

Definition sample_context : PluginContext.t str :=
  {| PluginContext.error := fun e => Throw (Foreign e);
     PluginContext.resolve := fun src _ => Normal (Some src) |}.

Definition sample_options : Options.t :=
  {| Options.devServer := None;
     Options.isProduction := true;
     Options.devToolsEnabled := false;
     Options.root := lit "/src";
     Options.sourceMap := true |}.

(** A source-map library that keeps the added mappings in a list and
    decodes every map to the given mappings. *)
Definition listing_maps (decoded : list EachMapping.t) : SourceMapLib :=
  {| GenMapping := list Mapping.t;
     fromMap := fun _ => [];
     addMapping := fun gen m => gen ++ [m];
     toEncodedMap := fun gen =>
       {| sources := List.map Mapping.source gen;
          sourcesContent := None;
          mappings :=
            concat (List.map
                      (fun m => number_to_string (fst (Mapping.generated m))
                                ++ lit ":"
                                ++ number_to_string (snd (Mapping.generated m))
                                ++ lit ";")
                      gen) |};
     eachMapping := fun _ => decoded |}.

(** A template mapping from generated line 1, column 0 to line 3,
    column 2 of the document, and one without a source. *)
Definition template_mapping_1 : EachMapping.t :=
  {| EachMapping.generatedLine := 1; EachMapping.generatedColumn := 0;
     EachMapping.source := Some (lit "App.vue");
     EachMapping.originalLine := Some 3; EachMapping.originalColumn := Some 2;
     EachMapping.name := None |}.

Definition sourceless_mapping : EachMapping.t :=
  {| EachMapping.generatedLine := 2; EachMapping.generatedColumn := 4;
     EachMapping.source := None;
     EachMapping.originalLine := None; EachMapping.originalColumn := None;
     EachMapping.name := None |}.

End Samples.

Module MoreSamples.
Import JS Injection Main Samples.

(** [export default defineComponent({})]: a call to [defineComponent]
    inside a default export. *)
Definition component_script : str := lit "export default defineComponent({})".

Definition component_ast : value :=
  file 34
    [node "ExportDefaultDeclaration" 0 34
       [(lit "declaration",
         call 15 34 (identifier 15 30 "defineComponent")
           [node "ObjectExpression" 31 33 [(lit "properties", VArray [])]])]].

Definition component_parser : BabelParser :=
  parser_of [(component_script, component_ast);
             (default_export_script, default_export_ast)].

(** The property that binds the render function. *)
Definition render_prop : str * str := (lit "render", lit "_sfc_render").

(** A script region that comes with a source map. *)
Definition mapped_script : Block.t :=
  {| Block.type := lit "script"; Block.content := default_export_script;
     Block.attrs := []; Block.map := Some empty_map; Block.lang := None;
     Block.src := None; Block.scoped := None; Block.module := None |}.

(** Options with source maps switched off. *)
Definition quiet_options : Options.t :=
  {| Options.devServer := None;
     Options.isProduction := true;
     Options.devToolsEnabled := false;
     Options.root := lit "/src";
     Options.sourceMap := false |}.

(** A compiler that reports the given errors for every document. *)
Definition failing_host (errors : list str) : Collaborators :=
  {| CompilerError := str;
     RollupError := str;
     getPrevDescriptor := fun _ => None;
     createDescriptor := fun _ _ _ => (document None None [], errors);
     getDescriptor := fun _ _ => Normal tt;
     setSrcDescriptor := fun _ _ _ => Normal tt;
     createRollupError := fun filename e => filename ++ lit ": " ++ e;
     canInlineMain := fun _ _ => true;
     isUseInlineTemplate := fun _ _ => false;
     resolveScript := fun d _ _ => Normal (Descriptor.script d);
     scriptIdentifier := lit "_sfc_main";
     transformTemplateInMain := fun content _ _ _ _ => Normal (content, None);
     isEqualBlock := fun _ _ => true;
     isOnlyTemplateChanged := fun _ _ => false;
     normalizePath := fun p => p;
     transformWithEsbuild := fun code _ _ _ => Normal (code, empty_map);
     basename := fun p => p;
     extname := fun _ => lit ".js";
     relative := fun _ p => p;
     existsSync := fun _ => true |}.

End MoreSamples.

Import JS Injection Main Notions Samples.

(* ================================================================== *)
(** * Properties of the insertion-point rewriter *)
(* ================================================================== *)

(** ** Slices of strings *)

Section SliceFacts.
Implicit Types s p q : str.

Lemma join_nil (xs : list str) : join [] xs = concat xs.
Proof.
  induction xs as [|x [|y xs] IH]; simpl in *.
  - reflexivity.
  - by rewrite app_nil_r.
  - by rewrite IH.
Qed.

Lemma len_app p q : len (p ++ q) = len p + len q.
Proof. unfold len. rewrite length_app. lia. Qed.

Lemma len_nonneg s : 0 <= len s.
Proof. unfold len. lia. Qed.

Lemma slice_within s a b :
  0 <= a <= b -> b <= len s ->
  slice s a b = take (Z.to_nat (b - a)) (drop (Z.to_nat a) s).
Proof.
  intros Hab Hb. unfold slice, rel_index.
  destruct (Z.ltb_spec a 0), (Z.ltb_spec b 0); try lia.
  by rewrite !Z.min_l, Z.max_l by lia.
Qed.

Lemma slice_prefix s b : 0 <= b <= len s -> slice s 0 b = take (Z.to_nat b) s.
Proof. intros Hb. rewrite slice_within by lia. by rewrite Z.sub_0_r. Qed.

Lemma slice_from_within s a :
  0 <= a <= len s -> slice_from s a = drop (Z.to_nat a) s.
Proof.
  intros Ha. unfold slice_from. rewrite slice_within by lia.
  apply take_ge. rewrite length_drop. unfold len. lia.
Qed.

(** A slice that lies in a prefix of the text is a slice of the prefix;
    the bounds may come in either order. *)
Lemma slice_app_l p q a b :
  0 <= a <= len p -> 0 <= b <= len p -> slice (p ++ q) a b = slice p a b.
Proof.
  intros Ha Hb. unfold slice, rel_index. rewrite len_app.
  pose proof (len_nonneg q).
  destruct (Z.ltb_spec a 0), (Z.ltb_spec b 0); try lia.
  rewrite !Z.min_l by lia.
  rewrite drop_app_le by (unfold len in *; lia).
  apply take_app_le. rewrite length_drop. unfold len in *. lia.
Qed.

Lemma slice_from_app_l p q a :
  0 <= a <= len p -> slice_from (p ++ q) a = slice_from p a ++ q.
Proof.
  intros Ha. rewrite !slice_from_within by (rewrite ?len_app; pose proof (len_nonneg q); lia).
  apply drop_app_le. unfold len in *. lia.
Qed.

Lemma slice_take s n a b :
  0 <= a <= n -> 0 <= b <= n -> n <= len s ->
  slice (take (Z.to_nat n) s) a b = slice s a b.
Proof.
  intros Ha Hb Hn.
  rewrite <- (take_drop (Z.to_nat n) s) at 2.
  symmetry. apply slice_app_l; unfold len in *; rewrite length_take; lia.
Qed.

Lemma len_take s n : 0 <= n <= len s -> len (take (Z.to_nat n) s) = n.
Proof. intros Hn. unfold len in *. rewrite length_take. lia. Qed.

(** With bounds that are not negative, a slice is cut between the two
    bounds clamped to the length of the text. *)
Lemma slice_clamped s a b :
  0 <= a -> 0 <= b ->
  let a' := Z.to_nat (Z.min a (len s)) in
  let b' := Z.to_nat (Z.min b (len s)) in
  slice s a b = take (b' - a') (drop a' s).
Proof.
  intros Ha Hb a' b'. unfold slice, rel_index.
  destruct (Z.ltb_spec a 0), (Z.ltb_spec b 0); try lia.
  f_equal. subst a' b'. lia.
Qed.

(** The three pieces that the loop joins, with the middle one left as
    it was, make up the text again. *)
Lemma slice_split s a b :
  0 <= a <= b -> slice s 0 a ++ slice s a b ++ slice_from s b = s.
Proof.
  intros Hab. unfold slice_from.
  pose proof (len_nonneg s) as Hlen.
  rewrite !slice_clamped by lia. simpl.
  rewrite Z.min_id, (Z.min_l 0) by lia. simpl. rewrite Nat.sub_0_r.
  set (a' := Z.to_nat (Z.min a (len s))).
  set (b' := Z.to_nat (Z.min b (len s))).
  assert (a' <= b')%nat by (subst a' b'; lia).
  assert (Z.to_nat (len s) = length s) as -> by (unfold len; lia).
  rewrite (take_ge (drop b' s)) by (rewrite length_drop; lia).
  rewrite <- (take_drop a' s) at 4. f_equal.
  rewrite <- (take_drop (b' - a') (drop a' s)) at 2. f_equal.
  rewrite drop_drop. f_equal. lia.
Qed.

End SliceFacts.

(** ** The sort and the check of the insertion points *)

Section SortFacts.
Implicit Types a b r : InsertionContext.
Implicit Types l : list InsertionContext.

Lemma insert_sorted_perm a l : insert_sorted a l ≡ₚ a :: l.
Proof.
  induction l as [|b l IH]; simpl; [done|].
  destruct (start b - start a <=? 0); [done|].
  rewrite IH. apply Permutation_swap.
Qed.

Lemma sort_by_start_desc_perm l : sort_by_start_desc l ≡ₚ l.
Proof.
  induction l as [|a l IH]; simpl; [done|].
  unfold sort_by_start_desc in *. simpl.
  by rewrite insert_sorted_perm, IH.
Qed.

Lemma insert_sorted_Sorted a l :
  Sorted starts_after l -> Sorted starts_after (insert_sorted a l).
Proof.
  induction l as [|b l IH]; intros Hl; simpl.
  - by repeat constructor.
  - destruct (Z.leb_spec (start b - start a) 0) as [Hle|Hgt].
    + constructor; [done|]. constructor. unfold starts_after. lia.
    + inversion_clear Hl as [|? ? Hl' Hhd].
      constructor; [by apply IH|].
      destruct l as [|c l]; simpl.
      * constructor. unfold starts_after. lia.
      * destruct (start c - start a <=? 0).
        -- constructor. unfold starts_after. lia.
        -- constructor. by inversion_clear Hhd.
Qed.

Lemma sort_by_start_desc_Sorted l : Sorted starts_after (sort_by_start_desc l).
Proof.
  induction l as [|a l IH]; simpl; [constructor|].
  by apply insert_sorted_Sorted.
Qed.

Lemma Forall_sort_by_start_desc (P : InsertionContext -> Prop) l :
  Forall P l -> Forall P (sort_by_start_desc l).
Proof. intros H. by rewrite sort_by_start_desc_perm. Qed.

(** On a sorted array of non-empty ranges the check passes exactly when
    every range lies to the right of all the ranges after it. *)
Lemma check_passes_disjoint l :
  Sorted starts_after l -> Forall nonempty_range l ->
  check_interlacing l = Normal tt -> StronglySorted right_of l.
Proof.
  induction l as [|later l IH]; intros Hs Hne Hcheck; [constructor|].
  inversion_clear Hs as [|? ? Hs' Hhd].
  inversion_clear Hne as [|? ? Hlater Hne'].
  destruct l as [|prior l].
  { repeat constructor. }
  simpl in Hcheck.
  destruct ((start later <? end_ prior) && (end_ later >? start prior))
    eqn:Hov; [discriminate|].
  specialize (IH Hs' Hne' Hcheck).
  constructor; [done|].
  inversion_clear Hhd as [|? ? Hord]. unfold starts_after in Hord.
  assert (Hright : right_of later prior).
  { unfold right_of, nonempty_range in *.
    apply andb_false_iff in Hov as [Hov|Hov]; lia. }
  constructor; [done|].
  inversion_clear IH as [|? ? _ Hall].
  inversion_clear Hne' as [|? ? Hprior _].
  eapply Forall_impl; [exact Hall|]. intros r Hr.
  unfold right_of, nonempty_range in *. lia.
Qed.

(** Conversely, a check that fails names an adjacent pair that overlaps. *)
Lemma check_fails_or_passes l :
  check_interlacing l = Normal tt
  \/ exists prior later,
       check_interlacing l = Throw (interlacing_error prior later)
       /\ prior ∈ l /\ later ∈ l
       /\ start later < end_ prior /\ start prior < end_ later.
Proof.
  induction l as [|later l IH]; [by left|].
  destruct l as [|prior l]; [by left|].
  simpl.
  destruct ((start later <? end_ prior) && (end_ later >? start prior))
    eqn:Hov.
  - right. exists prior, later. apply andb_true_iff in Hov as [H1 H2].
    rewrite !elem_of_cons. repeat split; [auto | auto | lia | lia].
  - destruct IH as [IH|(p & q & IH & Hp & Hq & H)]; [by left|].
    right. exists p, q.
    repeat split; [done | by right | by right | lia | lia].
Qed.

(** Two ranges of a pairwise disjoint array do not overlap. *)
Lemma disjoint_no_overlap l a b :
  StronglySorted right_of l -> Forall nonempty_range l ->
  a ∈ l -> b ∈ l -> start a < end_ b -> start b < end_ a -> a = b.
Proof.
  induction l as [|r l IH]; intros Hs Hne Ha Hb Hab Hba; [by inversion Ha|].
  inversion_clear Hs as [|? ? Hs' Hall].
  inversion_clear Hne as [|? ? Hr Hne'].
  pose proof (proj1 (Forall_forall _ _) Hall) as Hall'.
  pose proof (proj1 (Forall_forall _ _) Hne') as Hne''.
  apply elem_of_cons in Ha as [->|Ha], Hb as [->|Hb]; [done| | |by apply IH].
  - specialize (Hall' _ Hb). specialize (Hne'' _ Hb).
    unfold right_of, nonempty_range in *. lia.
  - specialize (Hall' _ Ha). specialize (Hne'' _ Ha).
    unfold right_of, nonempty_range in *. lia.
Qed.

End SortFacts.

(** ** Ranges that overlap *)

Section Overlap.
Implicit Types a b r : InsertionContext.

(** The check stands between the sort and the rewriting loop: when it
    throws, neither the script nor the rewriter is looked at. *)
Lemma transform_insertions_checked script insertions rewriter :
  transform_insertions script insertions rewriter
  = match check_interlacing (sort_by_start_desc insertions) with
    | Normal _ =>
        Normal (Z.of_nat (length insertions),
                rewrite_loop rewriter script (sort_by_start_desc insertions))
    | Throw e => Throw e
    end.
Proof.
  unfold transform_insertions.
  by destruct (check_interlacing (sort_by_start_desc insertions)) as [[]|e].
Qed.

(** Any two distinct overlapping ranges among non-empty ranges make the
    check throw. *)
Lemma overlapping_ranges_rejected insertions a b :
  Forall nonempty_range insertions ->
  a ∈ insertions -> b ∈ insertions -> a <> b ->
  start a < end_ b -> start b < end_ a ->
  exists prior later,
    check_interlacing (sort_by_start_desc insertions)
    = Throw (interlacing_error prior later).
Proof.
  intros Hne Ha Hb Hab H1 H2.
  destruct (check_fails_or_passes (sort_by_start_desc insertions))
    as [Hpass|(prior & later & Hthrow & _)]; [|by eauto].
  exfalso. apply Hab.
  apply (disjoint_no_overlap (sort_by_start_desc insertions)); try done.
  - apply check_passes_disjoint; [apply sort_by_start_desc_Sorted| |done].
    by apply Forall_sort_by_start_desc.
  - by apply Forall_sort_by_start_desc.
  - by rewrite sort_by_start_desc_perm.
  - by rewrite sort_by_start_desc_perm.
Qed.

(** C5.  When two of the matched ranges overlap without one containing
    the other, the rewriter throws the interlacing error, whatever the
    script and the rewriter are: the error is raised by the check that
    precedes the rewriting loop, so no text, rewritten or not, is
    returned.  The matched ranges are spans of call expressions or of
    declarations, hence non-empty. *)
Theorem interlacing_ranges_rejected insertions a b :
  Forall nonempty_range insertions ->
  a ∈ insertions -> b ∈ insertions -> interlace a b ->
  exists prior later, forall script rewriter,
    transform_insertions script insertions rewriter
    = Throw (interlacing_error prior later).
Proof.
  intros Hne Ha Hb (H1 & H2 & H3).
  destruct (overlapping_ranges_rejected insertions a b)
    as (prior & later & Hthrow); try done; try lia.
  { intros ->. lia. }
  exists prior, later. intros script rewriter.
  by rewrite transform_insertions_checked, Hthrow.
Qed.

Lemma interlacing_ranges_rejected_witness :
  exists prior later, forall script rewriter,
    transform_insertions script
      [{| start := 0; end_ := 10 |}; {| start := 5; end_ := 15 |}] rewriter
    = Throw (interlacing_error prior later).
Proof.
  apply (interlacing_ranges_rejected _
           {| start := 0; end_ := 10 |} {| start := 5; end_ := 15 |}).
  - repeat constructor; unfold nonempty_range; simpl; lia.
  - apply elem_of_cons. by left.
  - apply elem_of_cons. right. apply elem_of_cons. by left.
  - unfold interlace. simpl. lia.
Defined.

(** A pair of interlacing ranges on its own needs no side condition. *)
Lemma interlacing_pair_rejected a b script rewriter :
  interlace a b ->
  transform_insertions script [a; b] rewriter
  = Throw (interlacing_error a b)
  /\ transform_insertions script [b; a] rewriter
     = Throw (interlacing_error a b).
Proof.
  intros (H1 & H2 & H3).
  rewrite !transform_insertions_checked. unfold sort_by_start_desc. simpl.
  destruct (Z.leb_spec (start b - start a) 0); [lia|].
  destruct (Z.leb_spec (start a - start b) 0); [|lia].
  simpl.
  destruct (Z.ltb_spec (start b) (end_ a)); [|lia].
  destruct (Z.gtb_spec (end_ b) (start a)); [|lia].
  done.
Qed.

(** The same check rejects a range nested inside another one, in
    whichever order the two were matched. *)
Lemma nested_pair_rejected outer inner script rewriter :
  nonempty_range inner -> contains outer inner ->
  (exists prior later,
     transform_insertions script [outer; inner] rewriter
     = Throw (interlacing_error prior later))
  /\ (exists prior later,
        transform_insertions script [inner; outer] rewriter
        = Throw (interlacing_error prior later)).
Proof.
  unfold nonempty_range, contains. intros Hne [Hs He].
  rewrite !transform_insertions_checked. unfold sort_by_start_desc. simpl.
  split.
  - destruct (Z.leb_spec (start inner - start outer) 0); simpl.
    + destruct (Z.ltb_spec (start outer) (end_ inner)); [|lia].
      destruct (Z.gtb_spec (end_ outer) (start inner)); [|lia].
      simpl. eauto.
    + destruct (Z.ltb_spec (start inner) (end_ outer)); [|lia].
      destruct (Z.gtb_spec (end_ inner) (start outer)); [|lia].
      simpl. eauto.
  - destruct (Z.leb_spec (start outer - start inner) 0); simpl.
    + destruct (Z.ltb_spec (start inner) (end_ outer)); [|lia].
      destruct (Z.gtb_spec (end_ inner) (start outer)); [|lia].
      simpl. eauto.
    + lia.
Qed.

(** Without the check, the loop handles a nested pair as intended: the
    inner range is rewritten first and the end of the outer range moves
    by the change of length before the outer range is rewritten. *)
Lemma rewrite_loop_nested script rewriter outer inner :
  end_ inner <= end_ outer ->
  let content := slice script (start inner) (end_ inner) in
  let delta := len (rewriter content) - len content in
  let script' :=
    slice script 0 (start inner) ++ rewriter content
    ++ slice_from script (end_ inner) in
  rewrite_loop rewriter script [inner; outer]
  = slice script' 0 (start outer)
    ++ rewriter (slice script' (start outer) (end_ outer + delta))
    ++ slice_from script' (end_ outer + delta).
Proof.
  intros He content delta script'.
  simp rewrite_loop. simpl.
  destruct (Z.geb_spec (end_ outer) (end_ inner)); [|lia].
  simp rewrite_loop. simpl. reflexivity.
Qed.

(** C1.  On [defineComponent(defineComponent())] the two matched calls
    are nested, and the rewriter throws the interlacing error instead of
    rewriting the inner call and then the outer one. *)
Theorem nested_calls_raise_interlacing props hooks :
  injectIntoComponent sample_parser nested_script props hooks
  = Throw (interlacing_error {| start := 0; end_ := 34 |}
                             {| start := 16; end_ := 33 |}).
Proof. reflexivity. Qed.

End Overlap.

(** ** The rewriting loop against the reference implementation *)

Section Refinement.
Context (rewriter : NodeRewriter).
Implicit Types a b r : InsertionContext.
Implicit Types l : list InsertionContext.
Implicit Types script p q : str.

(** Among ranges that lie apart, no pending range encloses the current
    one, so the loop over the pending ranges stops at once. *)
Lemma shift_enclosing_apart r l delta :
  nonempty_range r -> StronglySorted right_of (r :: l) ->
  shift_enclosing (end_ r) delta l = l.
Proof.
  intros Hne Hs. destruct l as [|o l]; [done|]. simpl.
  inversion_clear Hs as [|? ? _ Hall].
  inversion_clear Hall as [|? ? Ho _].
  unfold right_of, nonempty_range in *.
  destruct (Z.geb_spec (end_ o) (end_ r)); [lia|done].
Qed.

Lemma rewrite_loop_step script r l :
  nonempty_range r -> StronglySorted right_of (r :: l) ->
  rewrite_loop rewriter script (r :: l)
  = rewrite_loop rewriter
      (slice script 0 (start r)
       ++ rewriter (slice script (start r) (end_ r))
       ++ slice_from script (end_ r)) l.
Proof.
  intros Hne Hs. simp rewrite_loop. simpl.
  by rewrite shift_enclosing_apart.
Qed.

(** Text to the right of every pending range is carried along
    unchanged. *)
Lemma rewrite_loop_app l : forall p q,
  StronglySorted right_of l -> Forall (within p) l ->
  rewrite_loop rewriter (p ++ q) l = rewrite_loop rewriter p l ++ q.
Proof.
  induction l as [|r l IH]; intros p q Hs Hin.
  { by simp rewrite_loop. }
  inversion Hs as [|? ? Hs' Hall]; subst.
  inversion_clear Hin as [|? ? (Hr0 & Hr1 & Hr2) Hin'].
  rewrite !rewrite_loop_step by done.
  rewrite slice_app_l, slice_app_l, slice_from_app_l by lia.
  rewrite (app_assoc _ _ q), (app_assoc _ _ q).
  apply IH; [done|].
  rewrite Forall_forall in Hall, Hin' |- *. intros o Ho.
  specialize (Hall _ Ho). destruct (Hin' _ Ho) as (Ho0 & Ho1 & Ho2).
  unfold within, right_of in *. repeat split; try lia.
  rewrite !len_app, slice_prefix, len_take by lia.
  pose proof (len_nonneg (rewriter (slice p (start r) (end_ r)))).
  pose proof (len_nonneg (slice_from p (end_ r))). lia.
Qed.

(** The reference pass over ranges that all lie left of a last range. *)
Lemma build_snoc script r : forall l pos,
  0 <= pos <= start r -> start r <= len script ->
  Forall (fun a => 0 <= start a <= start r /\ 0 <= end_ a <= start r) l ->
  build rewriter script pos (l ++ [r])
  = build rewriter (take (Z.to_nat (start r)) script) pos l
    ++ rewriter (slice script (start r) (end_ r))
    ++ slice_from script (end_ r).
Proof.
  induction l as [|a l IH]; intros pos Hpos Hlen Hall; simpl.
  - f_equal. unfold slice_from. rewrite len_take by lia.
    by rewrite slice_take by lia.
  - inversion_clear Hall as [|? ? [Ha Hb] Hall'].
    rewrite IH by (done || lia).
    rewrite !slice_take by lia. by rewrite <- !app_assoc.
Qed.

(** The loop over ranges that lie apart, rightmost first, builds the
    text that the reference pass builds over the same ranges from left
    to right. *)
Lemma rewrite_loop_build l : forall script,
  StronglySorted right_of l -> Forall (within script) l ->
  rewrite_loop rewriter script l = build rewriter script 0 (reverse l).
Proof.
  induction l as [|r l IH]; intros script Hs Hin.
  { simp rewrite_loop. simpl. unfold slice_from.
    rewrite slice_within by (pose proof (len_nonneg script); lia).
    simpl. rewrite Z.sub_0_r. unfold len. rewrite Nat2Z.id.
    by rewrite take_ge. }
  inversion Hs as [|? ? Hs' Hall]; subst.
  inversion_clear Hin as [|? ? (Hr0 & Hr1 & Hr2) Hin'].
  assert (Hleft : Forall (within (take (Z.to_nat (start r)) script)) l).
  { rewrite Forall_forall in Hall, Hin' |- *. intros o Ho.
    specialize (Hall _ Ho). destruct (Hin' _ Ho) as (Ho0 & Ho1 & Ho2).
    unfold within, right_of in *. rewrite len_take by lia. lia. }
  rewrite rewrite_loop_step by done.
  rewrite slice_prefix by lia.
  rewrite rewrite_loop_app by done.
  rewrite IH by done.
  rewrite reverse_cons, build_snoc; [done|lia|lia|].
  rewrite Forall_reverse.
  eapply Forall_impl; [exact Hleft|]. intros o (Ho0 & Ho1 & Ho2).
  rewrite len_take in Ho2 by lia. lia.
Qed.

End Refinement.

Section RefinementTheorem.
Implicit Types a b r : InsertionContext.
Implicit Types l : list InsertionContext.

(** Accepted non-empty ranges start at distinct offsets, so their
    ascending order is the reverse of the order of the sorted array. *)
Lemma ascending_is_reverse insertions :
  Forall nonempty_range insertions ->
  check_interlacing (sort_by_start_desc insertions) = Normal tt ->
  merge_sort starts_before insertions
  = reverse (sort_by_start_desc insertions).
Proof.
  intros Hne Hcheck.
  pose proof (sort_by_start_desc_Sorted insertions) as Hsorted.
  pose proof (Forall_sort_by_start_desc _ _ Hne) as Hne'.
  pose proof (check_passes_disjoint _ Hsorted Hne' Hcheck) as Hapart.
  symmetry. apply (Sorted_unique_strong starts_before).
  - intros x1 x2 Hx1 Hx2 H12 H21.
    rewrite elem_of_reverse in Hx1.
    rewrite merge_sort_Permutation in Hx2.
    rewrite <- (sort_by_start_desc_perm insertions) in Hx2.
    pose proof (proj1 (Forall_forall _ _) Hne' _ Hx1) as N1.
    pose proof (proj1 (Forall_forall _ _) Hne' _ Hx2) as N2.
    unfold starts_before, nonempty_range in *.
    apply (disjoint_no_overlap (sort_by_start_desc insertions));
      (done || lia).
  - apply (Sorted_reverse starts_after), Hsorted.
  - apply (Sorted_merge_sort starts_before).
  - by rewrite reverse_Permutation, sort_by_start_desc_perm,
         merge_sort_Permutation.
Qed.

(** C6.  For ranges that lie in the script and pass the check, the
    rewriter returns their number together with exactly the text that
    the reference implementation builds in one pass from left to right
    over the ranges in ascending order. *)
Theorem rightmost_first_refines_reference script insertions rewriter :
  Forall (within script) insertions ->
  check_interlacing (sort_by_start_desc insertions) = Normal tt ->
  transform_insertions script insertions rewriter
  = Normal (Z.of_nat (length insertions),
            reference_rewrite rewriter script insertions).
Proof.
  intros Hin Hcheck.
  assert (Hne : Forall nonempty_range insertions).
  { eapply Forall_impl; [exact Hin|]. by intros r (_ & ? & _). }
  rewrite transform_insertions_checked, Hcheck.
  unfold reference_rewrite. rewrite ascending_is_reverse by done.
  do 2 f_equal. apply rewrite_loop_build.
  - apply check_passes_disjoint; [apply sort_by_start_desc_Sorted| |done].
    by apply Forall_sort_by_start_desc.
  - by apply Forall_sort_by_start_desc.
Qed.

Lemma rightmost_first_refines_reference_witness :
  transform_insertions two_calls_script
    [{| start := 0; end_ := 4 |}; {| start := 5; end_ := 9 |}] wrap
  = Normal (2, lit "wrap(f(1));wrap(f(2))").
Proof.
  rewrite (rightmost_first_refines_reference two_calls_script).
  - reflexivity.
  - repeat constructor; by vm_compute.
  - reflexivity.
Defined.

(** The two statements above are about non-empty ranges, as the spans of
    calls and of declarations are.  A range of width zero, were one ever
    matched, would be taken by the loop for a range enclosed in the
    range that ends where it lies, and it would let the check pass over
    an interlacing pair that it separates in the sorted array. *)
Lemma zero_width_range_is_enclosed :
  transform_insertions (lit "abcdef")
    [{| start := 0; end_ := 3 |}; {| start := 3; end_ := 3 |}] wrap
  = Normal (2, lit "wrap(abcwrap())def")
  /\ reference_rewrite wrap (lit "abcdef")
       [{| start := 0; end_ := 3 |}; {| start := 3; end_ := 3 |}]
     = lit "wrap(abc)wrap()def".
Proof. split; reflexivity. Qed.

Lemma zero_width_range_hides_interlacing :
  interlace {| start := 3; end_ := 7 |} {| start := 5; end_ := 10 |}
  /\ check_interlacing
       (sort_by_start_desc
          [{| start := 5; end_ := 10 |}; {| start := 3; end_ := 3 |};
           {| start := 3; end_ := 7 |}])
     = Normal tt.
Proof. split; [unfold interlace; simpl; lia|reflexivity]. Qed.

(** C8.  With no property and no hook to attach, the rewriter made by
    [rewriteAsIIFE] returns every expression text unchanged, and the
    rewriting loop then returns the script as it was, whichever ranges
    were matched in it. *)
Theorem rewriteAsIIFE_nothing_to_attach :
  (forall expr, rewriteAsIIFE [] [] expr = expr)
  /\ (forall insertions script,
        Forall (fun r => 0 <= start r <= end_ r) insertions ->
        rewrite_loop (rewriteAsIIFE [] []) script insertions = script).
Proof.
  split; [done|].
  intros insertions.
  induction insertions as [|r l IH]; intros script Hall.
  { by simp rewrite_loop. }
  inversion_clear Hall as [|? ? Hr Hl].
  simp rewrite_loop. simpl.
  change (rewriteAsIIFE [] [] (slice script (start r) (end_ r)))
    with (slice script (start r) (end_ r)).
  rewrite Z.sub_diag.
  assert (Hshift : forall e others,
            shift_enclosing e 0 others = others).
  { intros e others. induction others as [|[s' e'] others IHo]; simpl; [done|].
    destruct (e' >=? e); [|done]. by rewrite IHo, Z.add_0_r. }
  rewrite Hshift.
  rewrite slice_split by done. by apply IH.
Qed.

Lemma rewriteAsIIFE_nothing_to_attach_witness :
  rewriteAsIIFE [] [] (lit "defineComponent({})") = lit "defineComponent({})"
  /\ rewrite_loop (rewriteAsIIFE [] []) two_calls_script
       [{| start := 5; end_ := 9 |}; {| start := 0; end_ := 4 |}]
     = two_calls_script.
Proof.
  destruct rewriteAsIIFE_nothing_to_attach as [Hexpr Hloop].
  split; [apply Hexpr|].
  apply Hloop. repeat constructor; simpl; lia.
Defined.

End RefinementTheorem.

(** ** A script without insertion point *)

Section NoInsertionPoint.
Context (babel : BabelParser).

Lemma transform_insertions_none script rewriter :
  transform_insertions script [] rewriter = Normal (0, script).
Proof.
  rewrite transform_insertions_checked. simpl. by simp rewrite_loop.
Qed.

(** When neither matcher finds an insertion point the result is the new
    default export alone; the script does not take part in it. *)
Lemma injectIntoComponent_no_match script props hooks :
  find_insertions babel script (matchFunctionCall (lit "defineComponent"))
  = Normal [] ->
  find_insertions babel script matchExportDefault = Normal [] ->
  injectIntoComponent babel script props hooks
  = Normal (lit "export default " ++ rewriteAsIIFE props hooks (lit "{}")).
Proof.
  intros Hcall Hexport. unfold injectIntoComponent, transformScript.
  rewrite Hcall. simpl. simp rewrite_loop. simpl.
  rewrite Hexport. simpl. simp rewrite_loop. reflexivity.
Qed.

End NoInsertionPoint.

(** C2.  On the script [import './polyfill'], in which neither a call to
    [defineComponent] nor a default export is found, nothing is to be
    attached, and [injectIntoComponent] returns [export default {}]
    alone: the text of the script is not a prefix of the result. *)
Theorem unmatched_script_is_dropped :
  find_insertions sample_parser polyfill_script
    (matchFunctionCall (lit "defineComponent")) = Normal []
  /\ find_insertions sample_parser polyfill_script matchExportDefault
     = Normal []
  /\ injectIntoComponent sample_parser polyfill_script [] []
     = Normal (lit "export default {}")
  /\ forall appended,
       injectIntoComponent sample_parser polyfill_script [] []
       <> Normal (polyfill_script ++ appended).
Proof.
  assert (Hcall : find_insertions sample_parser polyfill_script
                    (matchFunctionCall (lit "defineComponent")) = Normal [])
    by reflexivity.
  assert (Hexport : find_insertions sample_parser polyfill_script
                      matchExportDefault = Normal [])
    by reflexivity.
  split; [exact Hcall|]. split; [exact Hexport|]. split.
  - by rewrite injectIntoComponent_no_match.
  - intros appended.
    rewrite injectIntoComponent_no_match by done.
    vm_compute. discriminate.
Qed.

(* ================================================================== *)
(** * Properties of the module assembler *)
(* ================================================================== *)

(** ** The query encoder *)

Section QueryEncoder.

Lemma foldl_append_attr attrs : forall query,
  foldl append_attr query attrs = query ++ concat (List.map attr_param (echoed attrs)).
Proof.
  unfold echoed.
  induction attrs as [|entry attrs IH]; intros query; simpl.
  { by rewrite app_nil_r. }
  rewrite IH. unfold append_attr, includes.
  rewrite filter_cons.
  destruct (decide (fst entry ∉ ignoreList)) as [Hout|Hin].
  - rewrite bool_decide_eq_false_2 by done. simpl. by rewrite app_assoc.
  - rewrite bool_decide_eq_true_2 by (by apply dec_stable). done.
Qed.

(** The shape of the whole query: the echoed attributes in the order of
    the object, then the language parameter, if there is one. *)
Lemma attrsToQuery_shape attrs langFallback force :
  exists lang_param,
    attrsToQuery attrs langFallback force
    = concat (List.map attr_param (echoed attrs)) ++ lang_param
    /\ (lang_param = [] \/ exists tag, lang_param = lit "&lang." ++ tag).
Proof.
  unfold attrsToQuery. cbv zeta. rewrite foldl_append_attr.
  change ([] ++ ?x) with x.
  destruct (_ || _).
  - destruct (obj_has _ _); [destruct force|];
      eexists; (split; [reflexivity|]); right; eauto.
  - exists []. split; [by rewrite app_nil_r|by left].
Qed.

(** C7.  The query made from an attribute map consists of one parameter
    for each attribute whose name is not in the reserved list, in the
    order of the map, followed by the language parameter, if any; no
    attribute with a reserved name is among the echoed ones; each
    parameter is the percent-encoded name, followed by [=] and the
    percent-encoded value when the value is not empty.  The attribute
    set [{ id: "x", foo: "bar" }] with the fallback language [css]
    encodes as [&foo=bar&lang.css]. *)
Theorem attrsToQuery_skips_reserved :
  (forall attrs langFallback force,
     exists lang_param,
       attrsToQuery attrs langFallback force
       = concat (List.map attr_param (echoed attrs)) ++ lang_param
       /\ (lang_param = [] \/ exists tag, lang_param = lit "&lang." ++ tag))
  /\ (forall attrs name value,
        (name, value) ∈ echoed attrs ->
        (name, value) ∈ attrs
        /\ name ∉ [lit "id"; lit "index"; lit "src"; lit "type"; lit "lang";
                   lit "module"; lit "scoped"; lit "generic"])
  /\ (forall name value,
        attr_param (name, value) = lit "&" ++ encodeURIComponent name
        \/ attr_param (name, value)
           = lit "&" ++ encodeURIComponent name ++ lit "="
             ++ encodeURIComponent (attr_string value))
  /\ attrsToQuery [(lit "id", AttrString (lit "x"));
                   (lit "foo", AttrString (lit "bar"))]
       (Some (lit "css")) false
     = lit "&foo=bar&lang.css".
Proof.
  split; [apply attrsToQuery_shape|].
  split.
  { intros attrs name value Hin. unfold echoed in Hin.
    apply list_elem_of_filter in Hin as [Hname Hin]. by split. }
  split; [|reflexivity].
  intros name value. unfold attr_param.
  destruct (attr_truthy value); [by right|left]. by rewrite app_nil_r.
Qed.

End QueryEncoder.

(** ** The request of a style region *)

Section StyleRequest.

(** Against C4 as stated.  The order stated for the parameters, with
    the scoped marker ahead of the inline marker, does not hold: for a scoped style compiled in
    custom-element mode the inline marker comes first. *)
Lemma style_request_inline_before_scoped :
  styleRequest (document None None [scoped_style]) true 0 scoped_style
  = lit "/src/App.vue?vue&type=style&index=0&inline&scoped=7ba5bd90&lang.css"
  /\ styleRequest (document None None [scoped_style]) true 0 scoped_style
     <> lit "/src/App.vue?vue&type=style&index=0&scoped=7ba5bd90&inline&lang.css".
Proof. split; [reflexivity|]. vm_compute. discriminate. Qed.

(** C4, amended.  The request of a style region is the path followed by
    the type and index parameters, the src marker, the inline marker of
    custom-element mode, the scoped marker, one parameter for each
    attribute whose name is not reserved, in the order of the attribute
    object, and finally the language parameter, which is always
    present. *)
Theorem style_request_parameter_order (descriptor : Descriptor.t)
    (asCustomElement : bool) (i : Z) (style : Block.t) :
  let id := Descriptor.id descriptor in
  let path :=
    if given (Block.src style) then interpolate (Block.src style)
    else Descriptor.filename descriptor in
  let src_marker :=
    if given (Block.src style)
    then if flag (Block.scoped style) then lit "&src=" ++ id
         else lit "&src=true"
    else [] in
  let inline_marker := if asCustomElement then lit "&inline" else [] in
  let scoped_marker :=
    if flag (Block.scoped style) then lit "&scoped=" ++ id else [] in
  let language :=
    match obj_get (Block.attrs style) (lit "lang") with
    | Some value => attr_string value
    | None => lit "css"
    end in
  styleRequest descriptor asCustomElement i style
  = path ++ lit "?vue&type=style" ++ lit "&index=" ++ number_to_string i
    ++ src_marker ++ inline_marker ++ scoped_marker
    ++ concat (List.map attr_param (echoed (Block.attrs style)))
    ++ lit "&lang." ++ language.
Proof.
  intros id path src_marker inline_marker scoped_marker language.
  unfold styleRequest, attrsToQuery. cbv zeta. rewrite foldl_append_attr.
  change ([] ++ ?x) with x.
  change (given (Some (lit "css"))) with true. rewrite orb_true_l.
  assert (Hpath :
            default (Descriptor.filename descriptor)
              (or_else (Block.src style)
                 (Some (Descriptor.filename descriptor))) = path).
  { subst path. unfold or_else.
    destruct (given (Block.src style)) eqn:Hsrc; [|done].
    by destruct (Block.src style). }
  rewrite Hpath.
  assert (Hlang :
            (if obj_has (Block.attrs style) (lit "lang")
             then lit "&lang."
                  ++ interpolate
                       (attr_string <$> obj_get (Block.attrs style) (lit "lang"))
             else lit "&lang." ++ interpolate (Some (lit "css")))
            = lit "&lang." ++ language).
  { subst language. unfold obj_has.
    by destruct (obj_get (Block.attrs style) (lit "lang")) as [value|]. }
  rewrite Hlang.
  fold src_marker. fold inline_marker. fold scoped_marker. fold id.
  rewrite <- !app_assoc. reflexivity.
Qed.

End StyleRequest.

(** ** Source-map composition *)

Section LineBreaks.

Lemma match_line_breaks_cons c rest :
  length (match_line_breaks (c :: rest))
  = ((if bool_decide (c = ascii_of_N 10) then 1 else 0)
     + length (match_line_breaks rest))%nat.
Proof.
  cbn [match_line_breaks].
  case_bool_decide as Hcr.
  - subst c. rewrite (bool_decide_eq_false_2 (_ = ascii_of_N 10)) by done.
    destruct rest as [|c' rest']; [done|].
    cbn [match_line_breaks].
    destruct (decide (c' = ascii_of_N 10)) as [->|Hlf].
    + rewrite (bool_decide_eq_true_2 (ascii_of_N 10 = ascii_of_N 10)) by done.
      by rewrite (bool_decide_eq_false_2 (ascii_of_N 10 = ascii_of_N 13)).
    + by rewrite (bool_decide_eq_false_2 (c' = ascii_of_N 10)).
  - by case_bool_decide.
Qed.

(** The matches of [/\r?\n/g] are as many as the line feeds. *)
Lemma match_line_breaks_count s :
  Z.of_nat (length (match_line_breaks s)) = line_breaks s.
Proof.
  unfold line_breaks. f_equal.
  induction s as [|c s IH]; [done|].
  rewrite match_line_breaks_cons, IH, filter_cons.
  destruct (decide (c = ascii_of_N 10)).
  - by rewrite bool_decide_eq_true_2 by done.
  - by rewrite bool_decide_eq_false_2 by done.
Qed.

Lemma template_offset_line_breaks scriptCode :
  template_offset scriptCode = line_breaks scriptCode + 1.
Proof. unfold template_offset. by rewrite match_line_breaks_count. Qed.

(** Against C3 as stated.  The line shift stated for the composition,
    the number of line breaks of the script text, does not hold: with a script text of one
    line, hence no line break, the template mapping at generated line 1
    is re-emitted at generated line 2, not at line 1. *)
Lemma template_line_shift_exceeds_line_breaks :
  line_breaks default_export_script = 0
  /\ template_mapping (template_offset default_export_script)
       template_mapping_1
     = Some {| Mapping.source := lit "App.vue";
               Mapping.original := (Some 3, Some 2);
               Mapping.generated := (2, 0) |}
  /\ template_mapping (template_offset default_export_script)
       template_mapping_1
     <> moved_down (line_breaks default_export_script) template_mapping_1.
Proof. split; [reflexivity|]. split; [reflexivity|]. vm_compute. discriminate. Qed.

End LineBreaks.

Section Composition.
Context (maps : SourceMapLib).

Lemma template_mapping_moved_down offset m :
  template_mapping offset m = moved_down offset m.
Proof. unfold template_mapping, moved_down. by destruct (EachMapping.source m). Qed.

Lemma foldl_add_template_mapping offset ms : forall gen,
  foldl (add_template_mapping maps offset) gen ms
  = foldl (addMapping maps) gen (omap (moved_down offset) ms).
Proof.
  induction ms as [|m ms IH]; intros gen; [done|]. simpl.
  rewrite IH. unfold add_template_mapping.
  rewrite template_mapping_moved_down.
  by destruct (moved_down offset m).
Qed.

(** C3, amended.  When source maps are on and both a script map and a
    template map exist, the composed map is the encoding of the script
    map to which the template mappings have been added in order, each
    one that has a source with its generated line increased by the
    number of line breaks of the script text plus one, its generated
    column and its original position unchanged; the template mappings
    without source are left out.  The sources content is the one of the
    template map. *)
Theorem composed_map_shifts_template_lines options scriptCode
    scriptMap templateMap :
  Options.sourceMap options = true ->
  let added :=
    omap (moved_down (line_breaks scriptCode + 1))
      (eachMapping maps templateMap) in
  let encoded :=
    toEncodedMap maps (foldl (addMapping maps) (fromMap maps scriptMap) added) in
  resolve_map maps options scriptCode (Some scriptMap) (Some templateMap)
  = Some {| sources := sources encoded;
            sourcesContent := sourcesContent templateMap;
            mappings := mappings encoded |}.
Proof.
  intros Hon added encoded. unfold resolve_map. rewrite Hon.
  by rewrite foldl_add_template_mapping, template_offset_line_breaks.
Qed.

End Composition.

Lemma composed_map_shifts_template_lines_witness :
  resolve_map (listing_maps [template_mapping_1; sourceless_mapping])
    sample_options default_export_script (Some empty_map) (Some empty_map)
  = Some {| sources := [lit "App.vue"];
            sourcesContent := None;
            mappings := lit "2:0;" |}.
Proof.
  rewrite (composed_map_shifts_template_lines
             (listing_maps [template_mapping_1; sourceless_mapping])).
  - reflexivity.
  - reflexivity.
Defined.

(** ** The pipeline *)

Section Pipeline.
Context (babel : BabelParser) (maps : SourceMapLib) (host : Collaborators).
Implicit Types pluginContext : PluginContext.t (RollupError host).

Lemma bind_Normal {A B} (m : completion A) (f : A -> completion B) b :
  m ≫= f = Normal b -> exists a, m = Normal a /\ f a = Normal b.
Proof. destruct m as [a|e]; [by exists a|discriminate]. Qed.

(** A step of a computation that completed normally completed normally
    itself: [H] is left with the rest of the computation. *)
Tactic Notation "completed" hyp(H) "as" simple_intropattern(pat) :=
  let Hstep := fresh "Hstep" in
  apply bind_Normal in H as (pat & Hstep & H); clear Hstep.
Tactic Notation "completed" hyp(H) "as" simple_intropattern(pat)
    "with" ident(Hstep) :=
  apply bind_Normal in H as (pat & Hstep & H).

Lemma style_loop_rejects_module descriptor pluginContext styles :
  Exists css_module styles ->
  forall i stylesCode cssModulesMap,
  exists e,
    style_loop host descriptor pluginContext true i styles stylesCode
      cssModulesMap = Throw e
    /\ (Forall (links_source host descriptor pluginContext) styles ->
        e = custom_element_error).
Proof.
  induction styles as [|style styles IH]; intros Hex i stylesCode cssModulesMap.
  { inversion Hex. }
  cbn [style_loop].
  destruct (link_if_src host (Block.src style) descriptor pluginContext
              (Block.scoped style)) as [[]|e] eqn:Hlink.
  2: { exists e. split; [done|]. intros Hall.
       inversion_clear Hall as [|? ? Hhead _]. unfold links_source in Hhead.
       congruence. }
  cbn [mbind completion_bind].
  assert (Htail : forall code map,
            module_truthy (Block.module style) = false ->
            exists e,
              style_loop host descriptor pluginContext true (i + 1) styles
                code map = Throw e
              /\ (Forall (links_source host descriptor pluginContext) (style :: styles) ->
                  e = custom_element_error)).
  { intros code map Hfalse.
    destruct (IH) with (i := i + 1) (stylesCode := code)
      (cssModulesMap := map) as (e & He & Hlinks).
    - inversion_clear Hex as [? ? Hhead|]; [|done].
      unfold css_module in Hhead. congruence.
    - exists e. split; [done|]. intros Hall. apply Hlinks.
      by inversion_clear Hall. }
  destruct (Block.module style) as [moduleName|] eqn:Hmodule.
  - destruct (module_truthy (Some moduleName)) eqn:Htruthy.
    + by exists custom_element_error.
    + by apply Htail.
  - by apply Htail.
Qed.

Lemma genStyleCode_rejects_module descriptor pluginContext attachedProps :
  Exists css_module (Descriptor.styles descriptor) ->
  exists e,
    genStyleCode host descriptor pluginContext true attachedProps = Throw e
    /\ (Forall (links_source host descriptor pluginContext) (Descriptor.styles descriptor)
        -> e = custom_element_error).
Proof.
  intros Hex. unfold genStyleCode.
  destruct (style_loop_rejects_module descriptor pluginContext _ Hex 0 [] None)
    as (e & He & Hlinks).
  exists e. split; [|done].
  destruct (Descriptor.styles descriptor) as [|style styles]; [inversion Hex|].
  cbn [length]. rewrite bool_decide_eq_false_2 by done.
  cbn [negb]. by rewrite He.
Qed.

(** What [assemble] returns for a document that parses. *)
Lemma assemble_inv code filename options pluginContext ssr asCustomElement
    descriptor resolvedCode resolvedMap :
  assemble babel maps host code filename options pluginContext ssr
    asCustomElement
  = Normal (Some (descriptor, resolvedCode, resolvedMap)) ->
  descriptor = fst (createDescriptor host filename code options)
  /\ exists stylesCode attachedProps attachedProps',
       genStyleCode host descriptor pluginContext asCustomElement attachedProps
       = Normal (stylesCode, attachedProps').
Proof.
  unfold assemble. intros H.
  destruct (createDescriptor host filename code options)
    as [descriptor' errors].
  completed H as [].
  destruct (negb (bool_decide (length errors = 0%nat))).
  { completed H as []. discriminate. }
  completed H as [scriptCode scriptMap].
  completed H as [templateCode templateMap].
  completed H as [stylesCode attachedProps'] with Hstyles.
  completed H as customBlocksCode.
  completed H as injected.
  injection H as <- _ _. split; [done|]. eauto.
Qed.

(** C9.  When a style region of the document has the CSS-module flag
    set and the document is compiled in custom-element mode, the
    generation of the style code throws, with the message that style
    modules are not supported in custom elements mode unless linking an
    external style source threw first; the import of the style module
    is never generated, and [transformMain] returns no module. *)
Theorem css_module_in_custom_element_is_fatal code filename options
    pluginContext ssr :
  let descriptor := fst (createDescriptor host filename code options) in
  Exists css_module (Descriptor.styles descriptor) ->
  (forall attachedProps,
     exists e,
       genStyleCode host descriptor pluginContext true attachedProps = Throw e
       /\ (Forall (links_source host descriptor pluginContext)
             (Descriptor.styles descriptor)
           -> e = custom_element_error))
  /\ (forall result,
        transformMain babel maps host code filename options pluginContext ssr
          true
        <> Normal (Some result)).
Proof.
  intros descriptor Hex. split.
  { intros attachedProps. by apply genStyleCode_rejects_module. }
  intros result H. unfold transformMain in H.
  apply bind_Normal in H as (assembled & Hassemble & H).
  destruct assembled as [[[descriptor' resolvedCode] resolvedMap]|];
    [|discriminate].
  apply assemble_inv in Hassemble
    as (-> & stylesCode & attachedProps & attachedProps' & Hstyles).
  destruct (genStyleCode_rejects_module descriptor pluginContext attachedProps
              Hex) as (e & He & _).
  fold descriptor in Hstyles. congruence.
Qed.

(** C10.  When [transformMain] returns a module, the language tag of
    its metadata is the tag of the plain script if that is given,
    otherwise the tag of the setup script if that is given, otherwise
    [js].  The lowering step looks at the two tags in the other order:
    the returned text is the assembled text passed through the lowering
    step exactly when the tag of the setup script, or, if that is not
    given, the tag of the plain script, ends in [ts] or [tsx] and the
    plain script has no external source. *)
Theorem meta_lang_prefers_plain_script code filename options pluginContext
    ssr asCustomElement result :
  transformMain babel maps host code filename options pluginContext ssr
    asCustomElement
  = Normal (Some result) ->
  let descriptor := fst (createDescriptor host filename code options) in
  let script_lang := Descriptor.script descriptor ≫= Block.lang in
  let setup_lang := Descriptor.scriptSetup descriptor ≫= Block.lang in
  let script_src := Descriptor.script descriptor ≫= Block.src in
  TransformResult.lang result
  = (if given script_lang then interpolate script_lang
     else if given setup_lang then interpolate setup_lang
     else lit "js")
  /\ exists assembled assembled_map,
       assemble babel maps host code filename options pluginContext ssr
         asCustomElement
       = Normal (Some (descriptor, assembled, assembled_map))
       /\ let tag := if given setup_lang then setup_lang else script_lang in
          if given tag
             && (ends_with (lit "ts") (interpolate tag)
                 || ends_with (lit "tsx") (interpolate tag))
             && negb (given script_src)
          then exists lowered_map,
                 transformWithEsbuild host assembled filename
                   (Options.sourceMap options) assembled_map
                 = Normal (TransformResult.code result, lowered_map)
          else TransformResult.code result = assembled.
Proof.
  intros H descriptor script_lang setup_lang script_src.
  unfold transformMain in H.
  completed H as assembled with Hassemble.
  destruct assembled as [[[descriptor' resolvedCode] resolvedMap]|];
    [|discriminate].
  pose proof (assemble_inv _ _ _ _ _ _ _ _ _ Hassemble) as [-> _].
  fold descriptor in H, Hassemble.
  completed H as result' with Hlower.
  injection H as ->.
  unfold lower_and_return in Hlower.
  fold script_lang setup_lang script_src in Hlower.
  completed Hlower as [code' map'] with Hstep.
  injection Hlower as <-. cbn [TransformResult.lang TransformResult.code].
  split.
  { unfold or_else. destruct (given script_lang) eqn:Hscript.
    - cbn iota. by rewrite Hscript.
    - cbn iota. by destruct (given setup_lang). }
  exists resolvedCode, resolvedMap. split; [exact Hassemble|].
  cbv zeta. unfold or_else in Hstep.
  destruct (given (if given setup_lang then setup_lang else script_lang)
            && (ends_with (lit "ts")
                  (interpolate
                     (if given setup_lang then setup_lang else script_lang))
                || ends_with (lit "tsx")
                     (interpolate
                        (if given setup_lang then setup_lang else script_lang)))
            && negb (given script_src)).
  - completed Hstep as [lowered lowered_map] with Hesbuild.
    injection Hstep as <- _. by exists lowered_map.
  - by injection Hstep as <- _.
Qed.

End Pipeline.

Lemma css_module_in_custom_element_is_fatal_witness :
  let descriptor := document None None [scoped_style; module_style] in
  (forall attachedProps,
     exists e,
       genStyleCode (host_of descriptor) descriptor sample_context true
         attachedProps = Throw e
       /\ (Forall (links_source (host_of descriptor) descriptor sample_context)
             (Descriptor.styles descriptor)
           -> e = custom_element_error))
  /\ (forall result,
        transformMain sample_parser (listing_maps []) (host_of descriptor) []
          (lit "/src/App.vue") sample_options sample_context false true
        <> Normal (Some result)).
Proof.
  intros descriptor.
  apply (css_module_in_custom_element_is_fatal sample_parser (listing_maps [])
           (host_of descriptor) [] (lit "/src/App.vue") sample_options
           sample_context false).
  simpl. apply Exists_cons_tl, Exists_cons_hd. reflexivity.
Defined.

Lemma meta_lang_prefers_plain_script_witness :
  let result :=
    {| TransformResult.code :=
         lit "/* lowered */" ++ nl ++ nl ++ nl ++ nl ++ default_export_script;
       TransformResult.map := NoMappings;
       TransformResult.lang := lit "js" |} in
  TransformResult.lang result = lit "js"
  /\ exists assembled assembled_map,
       assemble sample_parser (listing_maps []) (host_of mixed_document) []
         (lit "/src/App.vue") sample_options sample_context false false
       = Normal (Some (mixed_document, assembled, assembled_map))
       /\ exists lowered_map,
            transformWithEsbuild (host_of mixed_document) assembled
              (lit "/src/App.vue") true assembled_map
            = Normal (TransformResult.code result, lowered_map).
Proof.
  intros result.
  apply (meta_lang_prefers_plain_script sample_parser (listing_maps [])
           (host_of mixed_document) [] (lit "/src/App.vue") sample_options
           sample_context false false result).
  reflexivity.
Defined.

(* ================================================================== *)
(** * Further properties of the insertion-point rewriter *)
(* ================================================================== *)

Import MoreSamples.

(** A step of a computation that completed normally completed normally
    itself: [H] is left with the rest of the computation. *)
Tactic Notation "completed" hyp(H) "as" simple_intropattern(pat) :=
  let Hstep := fresh "Hstep" in
  apply bind_Normal in H as (pat & Hstep & H); clear Hstep.
Tactic Notation "completed" hyp(H) "as" simple_intropattern(pat)
    "with" ident(Hstep) :=
  apply bind_Normal in H as (pat & Hstep & H).

(** ** The traversal and the matchers *)

Section Traversal.

(** Induction over a syntax tree, with the property at hand for every
    property value of an object and every item of an array. *)
Lemma value_tree_ind (P : value -> Prop) :
  P VUndefined -> P VNull -> (forall b, P (VBool b)) ->
  (forall n, P (VNum n)) -> (forall s, P (VStr s)) ->
  (forall props, Forall (fun entry => P (snd entry)) props -> P (VObject props)) ->
  (forall items, Forall P items -> P (VArray items)) ->
  forall v, P v.
Proof.
  intros Hu Hn Hb Hz Hs Ho Ha.
  fix IH 1. intros [| |b|n|s|props|items].
  - exact Hu.
  - exact Hn.
  - apply Hb.
  - apply Hz.
  - apply Hs.
  - apply Ho. induction props as [|[k v] props IHp]; constructor.
    + apply IH.
    + exact IHp.
  - apply Ha. induction items as [|v items IHi]; constructor.
    + apply IH.
    + exact IHi.
Qed.

(** What [matchFunctionCall] returns is the node itself, when it is a
    call to the identifier, and a falsy value otherwise. *)
Lemma and_then_truthy a b m :
  and_then a b = Normal m -> truthy m = true -> a = true /\ b = Normal m.
Proof.
  destruct a; simpl; [done|]. intros [= <-]. discriminate.
Qed.

Lemma is_string_true v s : is_string v s = true -> v = VStr s.
Proof.
  destruct v; simpl; try discriminate. intros H.
  by apply bool_decide_eq_true in H as ->.
Qed.

(** Only an object has a property that holds a string. *)
Lemma get_string v k s :
  get v k = Normal (VStr s) ->
  exists props, v = VObject props /\ obj_get props k = Some (VStr s).
Proof.
  destruct v as [| |b|n|s'|props|items]; simpl; try discriminate.
  intros [= H]. exists props. split; [done|].
  by destruct (obj_get props k) as [v|]; simpl in H; subst.
Qed.

Lemma matchFunctionCall_match identifier node m :
  matchFunctionCall identifier node = Normal m -> truthy m = true ->
  m = node /\ is_call_to identifier node.
Proof.
  unfold matchFunctionCall, is_call_to. intros H Htruthy.
  completed H as type with Htype.
  apply and_then_truthy in H as [Hcall H]; [|done].
  completed H as callee with Hcallee.
  completed H as callee_type with Hcallee_type.
  apply and_then_truthy in H as [Hident H]; [|done].
  completed H as callee' with Hcallee'.
  completed H as name with Hname.
  apply and_then_truthy in H as [Hid H]; [|done].
  injection H as <-. split; [done|].
  apply is_string_true in Hcall as ->.
  apply is_string_true in Hident as ->.
  apply is_string_true in Hid as ->.
  apply get_string in Htype as (props & -> & Htype).
  assert (callee' = callee) as -> by congruence.
  exists props, callee. repeat split; try done.
  cbn [get] in Hcallee.
  destruct (obj_get props (lit "callee")) as [c|]; cbn [default] in Hcallee.
  - by injection Hcallee as ->.
  - injection Hcallee as <-. discriminate.
Qed.

(** X1.  Every node that the traversal yields for the matcher of calls
    to an identifier is an object of type [CallExpression] whose callee
    is an [Identifier] with that name: nothing else is ever rewritten
    under the first policy. *)
Theorem traverseAst_yields_calls identifier : forall node matches,
  traverseAst (matchFunctionCall identifier) node = Normal matches ->
  Forall (is_call_to identifier) matches.
Proof.
  intros node. induction node as [| | | | |props IH|items IH]
    using value_tree_ind; intros matches H; cbn [traverseAst] in H;
    try (injection H as <-; constructor).
  - completed H as m with Hm.
    assert (Hrest : forall rest,
              (fix values (ps : obj value) : completion (list value) :=
                 match ps with
                 | [] => mret []
                 | (_, v) :: ps' =>
                     here ← traverseAst (matchFunctionCall identifier) v;
                     there ← values ps';
                     mret (here ++ there)
                 end) props = Normal rest ->
              Forall (is_call_to identifier) rest).
    { clear H Hm. induction IH as [|[k v] props Hv _ IHprops];
        intros rest H.
      - injection H as <-. constructor.
      - completed H as here with Hhere. completed H as there with Hthere.
        injection H as <-. apply Forall_app. split; [by apply Hv|].
        by apply IHprops. }
    completed H as rest with Hvalues. injection H as <-.
    apply Forall_app. split; [|by apply Hrest].
    destruct (truthy m) eqn:Htruthy; [|constructor].
    destruct (matchFunctionCall_match _ _ _ Hm Htruthy) as [-> Hcall].
    by repeat constructor.
  - completed H as m with Hm.
    assert (Hrest : forall rest,
              (fix values (vs : list value) : completion (list value) :=
                 match vs with
                 | [] => mret []
                 | v :: vs' =>
                     here ← traverseAst (matchFunctionCall identifier) v;
                     there ← values vs';
                     mret (here ++ there)
                 end) items = Normal rest ->
              Forall (is_call_to identifier) rest).
    { clear H Hm. induction IH as [|v items Hv _ IHitems]; intros rest H.
      - injection H as <-. constructor.
      - completed H as here with Hhere. completed H as there with Hthere.
        injection H as <-. apply Forall_app. split; [by apply Hv|].
        by apply IHitems. }
    completed H as rest with Hvalues. injection H as <-.
    apply Forall_app. split; [|by apply Hrest].
    destruct (truthy m) eqn:Htruthy; [|constructor].
    destruct (matchFunctionCall_match _ _ _ Hm Htruthy) as [-> Hcall].
    by repeat constructor.
Qed.

End Traversal.

Lemma traverseAst_yields_calls_witness :
  Forall (is_call_to (lit "defineComponent"))
    [call 0 34 (identifier 0 15 "defineComponent")
       [call 16 33 (identifier 16 31 "defineComponent") []];
     call 16 33 (identifier 16 31 "defineComponent") []].
Proof.
  apply (traverseAst_yields_calls (lit "defineComponent") nested_ast).
  reflexivity.
Defined.

Section TraversalOfExports.

Lemma matchExportDefault_object props :
  exists m, matchExportDefault (VObject props) = Normal m.
Proof.
  unfold matchExportDefault. cbn [get mbind completion_bind].
  destruct (is_string _ _); cbn [and_then]; eauto.
Qed.

Lemma matchExportDefault_array items :
  exists m, matchExportDefault (VArray items) = Normal m.
Proof.
  unfold matchExportDefault. cbn [get mbind completion_bind].
  destruct (is_string _ _); cbn [and_then]; eauto.
Qed.

(** X2.  The traversal with the matcher of default exports completes
    normally on every syntax tree: the matcher reads properties of
    objects and arrays only, which never throws, and values that are not
    objects are skipped. *)
Theorem traverseAst_matchExportDefault_completes node :
  exists matches, traverseAst matchExportDefault node = Normal matches.
Proof.
  induction node as [| | | | |props IH|items IH] using value_tree_ind;
    cbn [traverseAst]; try (by eexists).
  - destruct (matchExportDefault_object props) as [m ->].
    cbn [mbind completion_bind].
    assert (Hrest : exists rest,
              (fix values (ps : obj value) : completion (list value) :=
                 match ps with
                 | [] => mret []
                 | (_, v) :: ps' =>
                     here ← traverseAst matchExportDefault v;
                     there ← values ps';
                     mret (here ++ there)
                 end) props = Normal rest).
    { induction IH as [|[k v] props [here Hv] _ [there IHprops]];
        [by eexists|].
      cbn [snd] in Hv. rewrite Hv. cbn [mbind completion_bind].
      rewrite IHprops. by eexists. }
    destruct Hrest as [rest ->]. by eexists.
  - destruct (matchExportDefault_array items) as [m ->].
    cbn [mbind completion_bind].
    assert (Hrest : exists rest,
              (fix values (vs : list value) : completion (list value) :=
                 match vs with
                 | [] => mret []
                 | v :: vs' =>
                     here ← traverseAst matchExportDefault v;
                     there ← values vs';
                     mret (here ++ there)
                 end) items = Normal rest).
    { induction IH as [|v items [here Hv] _ [there IHitems]]; [by eexists|].
      rewrite Hv. cbn [mbind completion_bind].
      rewrite IHitems. by eexists. }
    destruct Hrest as [rest ->]. by eexists.
Qed.

End TraversalOfExports.

(** ** The sort and the check, once more *)

Section SortAndCheck.
Implicit Types a b r : InsertionContext.
Implicit Types l : list InsertionContext.

Lemma starting_at_insert_sorted k a l :
  starting_at k (insert_sorted a l)
  = starting_at k [a] ++ starting_at k l.
Proof.
  unfold starting_at.
  induction l as [|b l IH]; [by rewrite app_nil_r|]. cbn [insert_sorted].
  destruct (Z.leb_spec (start b - start a) 0) as [Hle|Hgt].
  { apply (filter_app _ [a] (b :: l)). }
  rewrite (filter_cons _ b (insert_sorted a l)), IH, (filter_cons _ b l).
  rewrite !(filter_cons _ a []).
  destruct (decide (start a = k)) as [Ha|Ha]; [|done].
  destruct (decide (start b = k)) as [Hb|Hb]; [lia|done].
Qed.

(** X3.  Sorting the insertion points keeps every one of them, orders
    them by descending start, and leaves those that start at the same
    offset in the order in which they were matched. *)
Theorem sort_by_start_desc_stable l :
  sort_by_start_desc l ≡ₚ l
  /\ Sorted starts_after (sort_by_start_desc l)
  /\ forall k, starting_at k (sort_by_start_desc l) = starting_at k l.
Proof.
  split; [apply sort_by_start_desc_perm|].
  split; [apply sort_by_start_desc_Sorted|].
  intros k. induction l as [|a l IH]; [done|].
  change (sort_by_start_desc (a :: l))
    with (insert_sorted a (sort_by_start_desc l)).
  rewrite starting_at_insert_sorted, IH. unfold starting_at.
  rewrite (filter_cons _ a l), (filter_cons _ a []).
  by destruct (decide (start a = k)).
Qed.

(** A check that fails names two neighbours of the array. *)
Lemma check_fails_adjacent l e :
  check_interlacing l = Throw e ->
  exists l1 later prior l2,
    l = l1 ++ later :: prior :: l2
    /\ start later < end_ prior /\ start prior < end_ later.
Proof.
  induction l as [|later l IH]; [discriminate|].
  destruct l as [|prior l]; [discriminate|]. cbn [check_interlacing].
  destruct ((start later <? end_ prior) && (end_ later >? start prior))
    eqn:Hov.
  - intros _. apply andb_true_iff in Hov as [H1 H2].
    exists [], later, prior, l. split; [reflexivity|]. split; lia.
  - intros H. destruct (IH H) as (l1 & x & y & l2 & Hsplit & Hxy).
    exists (later :: l1), x, y, l2. split; [|done].
    by rewrite Hsplit.
Qed.

(** X4.  For non-empty ranges the rewriter completes normally exactly
    when the matched ranges are distinct and no two of them overlap:
    besides interlacing ranges, nested ranges and a range matched twice
    are rejected. *)
Theorem transform_insertions_accepts_disjoint script insertions rewriter :
  Forall nonempty_range insertions ->
  (exists result,
     transform_insertions script insertions rewriter = Normal result)
  <-> NoDup insertions
      /\ forall a b, a ∈ insertions -> b ∈ insertions -> a <> b -> apart a b.
Proof.
  intros Hne. rewrite transform_insertions_checked.
  pose proof (sort_by_start_desc_perm insertions) as Hperm.
  pose proof (Forall_sort_by_start_desc _ _ Hne) as Hne'.
  split.
  - intros [result H].
    destruct (check_interlacing (sort_by_start_desc insertions))
      as [[]|e] eqn:Hcheck; [|discriminate].
    pose proof (check_passes_disjoint _
                  (sort_by_start_desc_Sorted insertions) Hne' Hcheck)
      as Hapart.
    split.
    + rewrite <- Hperm. clear Hperm Hcheck H.
      induction Hapart as [|r l Hl IH Hall]; [constructor|].
      inversion_clear Hne' as [|? ? Hr Hne''].
      constructor; [|by apply IH].
      intros Hin. rewrite Forall_forall in Hall.
      specialize (Hall _ Hin). unfold right_of, nonempty_range in *. lia.
    + intros a b Ha Hb Hab. rewrite <- Hperm in Ha, Hb.
      unfold apart.
      destruct (Z.le_gt_cases (end_ a) (start b)); [by left|].
      destruct (Z.le_gt_cases (end_ b) (start a)); [by right|].
      exfalso. apply Hab.
      apply (disjoint_no_overlap (sort_by_start_desc insertions));
        (done || lia).
  - intros [Hnodup Hapart].
    destruct (check_interlacing (sort_by_start_desc insertions))
      as [[]|e] eqn:Hcheck; [by eexists|].
    exfalso.
    destruct (check_fails_adjacent _ _ Hcheck)
      as (l1 & later & prior & l2 & Hsplit & H1 & H2).
    rewrite <- Hperm, Hsplit in Hnodup.
    apply NoDup_app in Hnodup as (_ & _ & Hnodup).
    apply NoDup_cons in Hnodup as [Hnotin _].
    assert (later <> prior) as Hdiff.
    { intros ->. apply Hnotin. by left. }
    assert (later ∈ insertions) as Hlater.
    { rewrite <- Hperm, Hsplit. apply elem_of_app. right. by left. }
    assert (prior ∈ insertions) as Hprior.
    { rewrite <- Hperm, Hsplit. apply elem_of_app. right. right. by left. }
    destruct (Hapart _ _ Hlater Hprior Hdiff); lia.
Qed.

Lemma transform_insertions_accepts_disjoint_witness :
  (exists result,
     transform_insertions two_calls_script
       [{| start := 0; end_ := 4 |}; {| start := 5; end_ := 9 |}] wrap
     = Normal result)
  <-> NoDup [{| start := 0; end_ := 4 |}; {| start := 5; end_ := 9 |}]
      /\ forall a b,
           a ∈ [{| start := 0; end_ := 4 |}; {| start := 5; end_ := 9 |}] ->
           b ∈ [{| start := 0; end_ := 4 |}; {| start := 5; end_ := 9 |}] ->
           a <> b -> apart a b.
Proof.
  apply (transform_insertions_accepts_disjoint two_calls_script).
  repeat constructor; unfold nonempty_range; simpl; lia.
Defined.

End SortAndCheck.

(** ** The wrapper *)

Section Wrapper.

Lemma join_cons2 sep x y (l : list str) :
  join sep (x :: y :: l) = x ++ sep ++ join sep (y :: l).
Proof. reflexivity. Qed.

Lemma join_cons_nonempty sep x (l : list str) :
  l <> [] -> join sep (x :: l) = x ++ sep ++ join sep l.
Proof. by destruct l. Qed.

Lemma join_app_cons sep (l : list str) x l' :
  join sep (l ++ x :: l')
  = concat (List.map (fun s => s ++ sep) l) ++ join sep (x :: l').
Proof.
  induction l as [|y l IH]; [done|].
  change ((y :: l) ++ x :: l') with (y :: (l ++ x :: l')).
  rewrite join_cons_nonempty by (by destruct l).
  rewrite IH. cbn [List.map concat]. by rewrite <- !app_assoc.
Qed.

(** X5.  When there is a property or a hook to attach, the rewritten
    text is the expression, unchanged, between the opening of the
    wrapper and a text that does not depend on the expression and ends
    with the return of the binding: the hooks are applied to the name of
    the binding and never see the expression. *)
Theorem rewriteAsIIFE_wraps props hooks :
  props <> [] \/ hooks <> [] ->
  exists attached,
    forall expr,
      rewriteAsIIFE props hooks expr
      = lit "(() => {" ++ nl
        ++ lit "const sfc_main = /*#__PURE__*/ Object.assign(" ++ expr
        ++ lit ", { " ++ attached ++ nl ++ lit "return sfc_main" ++ nl
        ++ lit "})()".
Proof.
  intros Hsome.
  exists (join (lit ", ")
            (List.map
               (fun '(key, value) => join (lit ": ") [JSON_stringify key; value])
               props)
          ++ lit " })"
          ++ concat (List.map (fun s => nl ++ s)
                       (concat (List.map (fun f => flat (f (lit "sfc_main")))
                                  hooks)))).
  intros expr. unfold rewriteAsIIFE.
  assert (bool_decide (length props = 0%nat)
          && bool_decide (length hooks = 0%nat) = false) as ->.
  { apply andb_false_iff.
    destruct Hsome as [Hp|Hh]; [left|right];
      apply bool_decide_eq_false; intros Hlen;
      by apply length_zero_iff_nil in Hlen. }
  set (lines := concat (List.map (fun f => flat (f (lit "sfc_main"))) hooks)).
  change ([?a; ?b] ++ lines ++ ?c) with (a :: b :: lines ++ c).
  rewrite join_cons2.
  rewrite (join_cons_nonempty nl _ (lines ++ _)) by (by destruct lines).
  rewrite join_app_cons. rewrite join_cons2. cbn [join].
  assert (Hlines : forall (l : list str) (rest : str),
            nl ++ concat (List.map (fun s => s ++ nl) l) ++ rest
            = concat (List.map (fun s => nl ++ s) l) ++ nl ++ rest).
  { induction l as [|s l IHl]; intros rest; [done|].
    cbn [List.map concat]. rewrite <- !app_assoc.
    by rewrite IHl. }
  rewrite <- !app_assoc. do 7 f_equal.
  apply Hlines.
Qed.

Lemma rewriteAsIIFE_wraps_witness :
  exists attached,
    forall expr,
      rewriteAsIIFE [render_prop] [] expr
      = lit "(() => {" ++ nl
        ++ lit "const sfc_main = /*#__PURE__*/ Object.assign(" ++ expr
        ++ lit ", { " ++ attached ++ nl ++ lit "return sfc_main" ++ nl
        ++ lit "})()".
Proof.
  apply (rewriteAsIIFE_wraps [render_prop] []). by left.
Defined.

End Wrapper.

(** ** The three policies of [injectIntoComponent] *)

Section Policies.
Context (babel : BabelParser).

(** X6.  When calls to [defineComponent] are found, the outcome is the
    outcome of rewriting those calls, a text or an error: a default
    export in the script is not looked for. *)
Theorem injectIntoComponent_prefers_calls script props hooks insertions :
  find_insertions babel script (matchFunctionCall (lit "defineComponent"))
  = Normal insertions ->
  insertions <> [] ->
  injectIntoComponent babel script props hooks
  = match transform_insertions script insertions (rewriteAsIIFE props hooks)
    with
    | Normal (_, injectedScript) => Normal injectedScript
    | Throw e => Throw e
    end.
Proof.
  intros Hfind Hsome. unfold injectIntoComponent, transformScript.
  rewrite Hfind. cbn [mbind completion_bind].
  rewrite transform_insertions_checked.
  destruct (check_interlacing (sort_by_start_desc insertions)) as [[]|e];
    [|done].
  cbn [mbind completion_bind].
  destruct insertions as [|r l]; [done|].
  assert (negb (Z.of_nat (length (r :: l)) =? 0) = true) as ->; [|done].
  apply negb_true_iff, Z.eqb_neq. cbn [length]. lia.
Qed.

(** X7.  When no call to [defineComponent] is found and the script has
    one default export, the result is the script with the declaration
    of that export replaced by its rewriting, and every character before
    and after the declaration kept. *)
Theorem injectIntoComponent_default_export script props hooks declaration :
  find_insertions babel script (matchFunctionCall (lit "defineComponent"))
  = Normal [] ->
  find_insertions babel script matchExportDefault = Normal [declaration] ->
  injectIntoComponent babel script props hooks
  = Normal
      (slice script 0 (start declaration)
       ++ rewriteAsIIFE props hooks
            (slice script (start declaration) (end_ declaration))
       ++ slice_from script (end_ declaration)).
Proof.
  intros Hcall Hexport. unfold injectIntoComponent, transformScript.
  rewrite Hcall. cbn [mbind completion_bind].
  rewrite transform_insertions_none. cbn [mbind completion_bind].
  change (negb (0 =? 0)) with false. cbn iota.
  rewrite Hexport. cbn [mbind completion_bind].
  rewrite transform_insertions_checked.
  cbn [sort_by_start_desc foldr insert_sorted check_interlacing
         mret completion_ret length].
  change (negb (Z.of_nat 1 =? 0)) with true. cbn iota.
  simp rewrite_loop. cbn [shift_enclosing]. simp rewrite_loop.
  by rewrite join_nil; cbn [concat]; rewrite app_nil_r.
Qed.

(** X8.  A script that the parser rejects makes [injectIntoComponent]
    throw the error of the parser, whatever is to be attached. *)
Theorem injectIntoComponent_parse_error script props hooks e :
  parse babel script = Throw e ->
  injectIntoComponent babel script props hooks = Throw e.
Proof.
  intros Hparse.
  unfold injectIntoComponent, transformScript, find_insertions.
  by rewrite Hparse.
Qed.

End Policies.

Lemma injectIntoComponent_prefers_calls_witness :
  injectIntoComponent component_parser component_script [render_prop] []
  = Normal
      (lit "export default "
       ++ rewriteAsIIFE [render_prop] [] (lit "defineComponent({})")).
Proof.
  rewrite (injectIntoComponent_prefers_calls component_parser component_script
             [render_prop] [] [{| start := 15; end_ := 34 |}]).
  - reflexivity.
  - reflexivity.
  - discriminate.
Defined.

Lemma injectIntoComponent_default_export_witness :
  injectIntoComponent component_parser default_export_script [render_prop] []
  = Normal (lit "export default " ++ rewriteAsIIFE [render_prop] [] (lit "{}")).
Proof.
  rewrite (injectIntoComponent_default_export component_parser
             default_export_script [render_prop] []
             {| start := 15; end_ := 17 |}).
  - reflexivity.
  - reflexivity.
  - reflexivity.
Defined.

Lemma injectIntoComponent_parse_error_witness :
  injectIntoComponent component_parser (lit "export default {") [render_prop] []
  = Throw (Foreign (lit "SyntaxError")).
Proof.
  apply (injectIntoComponent_parse_error component_parser). reflexivity.
Defined.

(** ** The length of the rewritten text *)

Section Lengths.
Context (rewriter : NodeRewriter).
Implicit Types l : list InsertionContext.

Lemma total_delta_perm script l l' :
  l ≡ₚ l' -> total_delta rewriter script l = total_delta rewriter script l'.
Proof.
  induction 1 as [|r l l' _ IH|r r' l|l l' l'' _ IH1 _ IH2]; cbn [total_delta];
    [done|by rewrite IH|lia|congruence].
Qed.

(** Slices to the left of a rewritten range are not disturbed by it. *)
Lemma total_delta_left script s (rest : str) l :
  0 <= s <= len script ->
  Forall (fun r => 0 <= start r /\ start r < end_ r /\ end_ r <= s) l ->
  total_delta rewriter (slice script 0 s ++ rest) l
  = total_delta rewriter script l.
Proof.
  intros Hs. induction 1 as [|r l (H0 & H1 & H2) _ IH]; [done|].
  cbn [total_delta]. rewrite IH. do 3 f_equal.
  rewrite slice_prefix by lia.
  rewrite slice_app_l by (rewrite len_take; lia).
  f_equal. apply slice_take; lia.
Qed.

Lemma rewrite_loop_length l : forall script,
  StronglySorted right_of l -> Forall (within script) l ->
  len (rewrite_loop rewriter script l)
  = len script + total_delta rewriter script l.
Proof.
  induction l as [|r l IH]; intros script Hs Hin.
  { simp rewrite_loop. cbn [total_delta]. lia. }
  inversion Hs as [|? ? Hs' Hall]; subst.
  inversion_clear Hin as [|? ? (Hr0 & Hr1 & Hr2) Hin'].
  assert (Hleft : Forall (fun o => 0 <= start o /\ start o < end_ o
                                   /\ end_ o <= start r) l).
  { rewrite Forall_forall in Hall, Hin' |- *. intros o Ho.
    specialize (Hall _ Ho). destruct (Hin' _ Ho) as (Ho0 & Ho1 & Ho2).
    unfold right_of in Hall. lia. }
  rewrite rewrite_loop_step by done.
  set (replacement := rewriter (slice script (start r) (end_ r))).
  rewrite IH; [|done|].
  - rewrite total_delta_left by (done || lia). cbn [total_delta].
    fold replacement.
    rewrite !len_app, slice_prefix, len_take by lia.
    rewrite slice_from_within by lia.
    unfold len at 2. rewrite length_drop. unfold len in *. lia.
  - eapply Forall_impl; [exact Hleft|]. intros o (Ho0 & Ho1 & Ho2).
    unfold within. repeat split; try lia.
    rewrite !len_app, slice_prefix, len_take by lia.
    pose proof (len_nonneg replacement).
    pose proof (len_nonneg (slice_from script (end_ r))). lia.
Qed.

(** X9.  For ranges that lie in the script and are accepted, the length
    of the rewritten script is the length of the script plus, for each
    range, the length of its rewritten text less its width; the number
    returned with it is the number of ranges. *)
Theorem transform_insertions_length script insertions count injected :
  Forall (within script) insertions ->
  transform_insertions script insertions rewriter = Normal (count, injected) ->
  count = Z.of_nat (length insertions)
  /\ len injected = len script + total_delta rewriter script insertions.
Proof.
  intros Hin H. rewrite transform_insertions_checked in H.
  destruct (check_interlacing (sort_by_start_desc insertions))
    as [[]|e] eqn:Hcheck; [|discriminate].
  injection H as <- <-. split; [done|].
  assert (Hne : Forall nonempty_range insertions).
  { eapply Forall_impl; [exact Hin|]. by intros r (_ & ? & _). }
  rewrite rewrite_loop_length.
  - by rewrite (total_delta_perm script _ _ (sort_by_start_desc_perm insertions)).
  - apply check_passes_disjoint; [apply sort_by_start_desc_Sorted| |done].
    by apply Forall_sort_by_start_desc.
  - by apply Forall_sort_by_start_desc.
Qed.

End Lengths.

Lemma transform_insertions_length_witness :
  2 = Z.of_nat (length [{| start := 0; end_ := 4 |};
                        {| start := 5; end_ := 9 |}])
  /\ len (lit "wrap(f(1));wrap(f(2))")
     = len two_calls_script
       + total_delta wrap two_calls_script
           [{| start := 0; end_ := 4 |}; {| start := 5; end_ := 9 |}].
Proof.
  apply (transform_insertions_length wrap two_calls_script).
  - repeat constructor; by vm_compute.
  - reflexivity.
Defined.

(* ================================================================== *)
(** * Further properties of the module assembler *)
(* ================================================================== *)

(** ** The query encoder, once more *)

Section QueryText.




(** X11.  With a fallback language that is not empty the query always
    ends with the language parameter: the fallback when it is forced or
    when there is no [lang] attribute, the text of the [lang] attribute
    otherwise.  Without fallback and without [lang] attribute the query
    has no language parameter. *)
Theorem attrsToQuery_language attrs force :
  (forall fallback,
     fallback <> [] ->
     attrsToQuery attrs (Some fallback) force
     = concat (List.map attr_param (echoed attrs)) ++ lit "&lang."
       ++ (if force then fallback
           else match obj_get attrs (lit "lang") with
                | Some value => attr_string value
                | None => fallback
                end))
  /\ (obj_get attrs (lit "lang") = None ->
      attrsToQuery attrs None force
      = concat (List.map attr_param (echoed attrs))).
Proof.
  split.
  - intros fallback Hfallback.
    unfold attrsToQuery. cbv zeta. rewrite foldl_append_attr.
    change ([] ++ ?x) with x.
    assert (given (Some fallback) = true) as ->.
    { cbn [given]. unfold nonempty. by rewrite bool_decide_eq_false_2. }
    rewrite orb_true_l. unfold obj_has.
    destruct (obj_get attrs (lit "lang")) as [value|]; by destruct force.
  - intros Hnone. unfold attrsToQuery. cbv zeta. rewrite foldl_append_attr.
    rewrite Hnone. reflexivity.
Qed.

Lemma attrsToQuery_language_witness :
  attrsToQuery [(lit "lang", AttrString (lit "scss"))] (Some (lit "js")) true
  = lit "&lang.js"
  /\ attrsToQuery [(lit "setup", AttrTrue)] None false = lit "&setup=true".
Proof.
  destruct (attrsToQuery_language [(lit "lang", AttrString (lit "scss"))] true)
    as [Hforced _].
  destruct (attrsToQuery_language [(lit "setup", AttrTrue)] false)
    as [_ Hnone].
  split.
  - rewrite Hforced; [reflexivity|discriminate].
  - rewrite Hnone; reflexivity.
Defined.

End QueryText.

(** ** The request of a CSS module *)

Section ModuleRequest.

Lemma word_char_dot : word_char "."%char = false.
Proof. reflexivity. Qed.

(** X12.  In a request that ends with a dot followed by word
    characters, [.module] is inserted before that dot; any other
    request is left as it is. *)
Theorem insert_module_extension :
  (forall head ext,
     ext <> [] -> forallb word_char ext = true ->
     insert_module (head ++ lit "." ++ ext) = head ++ lit ".module." ++ ext)
  /\ (forall request,
        (forall head ext,
           request = head ++ lit "." ++ ext ->
           ext = [] \/ forallb word_char ext = false) ->
        insert_module request = request).
Proof.
  split.
  - intros head ext Hext Hword.
    induction head as [|c head IH]; cbn [app insert_module].
    + change (lit "." ++ ext) with ("."%char :: ext). cbn [insert_module].
      rewrite bool_decide_eq_true_2 by done. rewrite Hword.
      unfold nonempty. by rewrite bool_decide_eq_false_2.
    + rewrite IH.
      assert (forallb word_char (head ++ lit "." ++ ext) = false) as ->;
        [|by rewrite !andb_false_r].
      rewrite forallb_app. change (lit "." ++ ext) with ("."%char :: ext).
      cbn [forallb]. rewrite word_char_dot. by rewrite andb_false_r.
  - intros request.
    induction request as [|c rest IH]; intros Hnone; [done|].
    cbn [insert_module].
    destruct (bool_decide (c = "."%char) && nonempty rest
              && forallb word_char rest) eqn:Hmatch.
    + apply andb_true_iff in Hmatch as [Hmatch Hword].
      apply andb_true_iff in Hmatch as [Hdot Hrest].
      apply bool_decide_eq_true in Hdot as ->.
      destruct (Hnone [] rest eq_refl) as [->|Hfalse]; [done|congruence].
    + f_equal. apply IH. intros head ext ->.
      apply (Hnone (c :: head) ext). reflexivity.
Qed.

Lemma insert_module_extension_witness :
  insert_module (lit "/src/App.vue?vue&type=style&index=0&lang" ++ lit "."
                 ++ lit "css")
  = lit "/src/App.vue?vue&type=style&index=0&lang" ++ lit ".module."
    ++ lit "css".
Proof.
  destruct insert_module_extension as [Hext _].
  apply Hext; [discriminate|reflexivity].
Defined.

(** The request of a style region ends with its language parameter. *)
Lemma styleRequest_language descriptor asCustomElement i style :
  exists head,
    styleRequest descriptor asCustomElement i style
    = head ++ lit "&lang" ++ lit "." ++ style_language style.
Proof.
  exists (default (Descriptor.filename descriptor)
            (or_else (Block.src style) (Some (Descriptor.filename descriptor)))
          ++ (lit "?vue&type=style&index=" ++ number_to_string i
              ++ (if given (Block.src style)
                  then if flag (Block.scoped style)
                       then lit "&src=" ++ Descriptor.id descriptor
                       else lit "&src=true"
                  else [])
              ++ (if asCustomElement then lit "&inline" else [])
              ++ (if flag (Block.scoped style)
                  then lit "&scoped=" ++ Descriptor.id descriptor
                  else []))
          ++ foldl append_attr [] (Block.attrs style)).
  unfold styleRequest, attrsToQuery, style_language. cbv zeta.
  change (given (Some (lit "css"))) with true. rewrite orb_true_l.
  unfold obj_has. rewrite <- !app_assoc.
  by destruct (obj_get (Block.attrs style) (lit "lang")) as [value|].
Qed.

(** X13.  For a style region whose language tag is made of word
    characters, the import generated for its CSS module asks for the
    request of the region with [.module] inserted before the language
    tag, and binds it to [style] followed by the index of the region;
    the name under which it is exposed is the one given to the [module]
    attribute, or [$style]. *)
Theorem genCSSModulesCode_request descriptor i style moduleName :
  style_language style <> [] ->
  forallb word_char (style_language style) = true ->
  exists head,
    styleRequest descriptor false i style
    = head ++ lit "&lang" ++ lit "." ++ style_language style
    /\ genCSSModulesCode i (styleRequest descriptor false i style) moduleName
       = (nl ++ lit "import style" ++ number_to_string i ++ lit " from "
          ++ JSON_stringify
               (head ++ lit "&lang" ++ lit ".module." ++ style_language style),
          [(match moduleName with
            | ModuleName name => name
            | ModuleFlag _ => lit "$style"
            end,
            lit "style" ++ number_to_string i)]).
Proof.
  intros Hlang Hword.
  destruct (styleRequest_language descriptor false i style) as [head Hhead].
  exists head. split; [done|].
  unfold genCSSModulesCode. rewrite Hhead.
  destruct insert_module_extension as [Hext _].
  rewrite (app_assoc head (lit "&lang")), Hext by done.
  by rewrite <- !app_assoc.
Qed.

Lemma genCSSModulesCode_request_witness :
  exists head,
    styleRequest (document None None [module_style]) false 0 module_style
    = head ++ lit "&lang" ++ lit "." ++ lit "css"
    /\ genCSSModulesCode 0
         (styleRequest (document None None [module_style]) false 0 module_style)
         (ModuleFlag true)
       = (nl ++ lit "import style" ++ number_to_string 0 ++ lit " from "
          ++ JSON_stringify (head ++ lit "&lang" ++ lit ".module." ++ lit "css"),
          [(lit "$style", lit "style" ++ number_to_string 0)]).
Proof.
  apply (genCSSModulesCode_request (document None None [module_style]) 0
           module_style (ModuleFlag true)).
  - discriminate.
  - reflexivity.
Defined.

End ModuleRequest.

(** ** Linking an external source *)

Section Linking.
Context (host : Collaborators).
Implicit Types pluginContext : PluginContext.t (RollupError host).




End Linking.


(** ** The code of the style regions *)

Section StyleCode.
Context (host : Collaborators).
Implicit Types pluginContext : PluginContext.t (RollupError host).

Lemma style_loop_plain descriptor pluginContext asCustomElement styles :
  Forall (fun style => module_truthy (Block.module style) = false) styles ->
  Forall (links_source host descriptor pluginContext) styles ->
  forall (k : nat) stylesCode cssModulesMap,
    style_loop host descriptor pluginContext asCustomElement (Z.of_nat k)
      styles stylesCode cssModulesMap
    = Normal
        (stylesCode
         ++ concat
              (imap (fun j => plain_style_import descriptor asCustomElement
                                (k + j))
                 styles),
         cssModulesMap).
Proof.
  intros Hplain Hlinks.
  induction styles as [|style styles IH]; intros k stylesCode cssModulesMap.
  { cbn. by rewrite app_nil_r. }
  inversion_clear Hplain as [|? ? Hstyle Hplain'].
  inversion_clear Hlinks as [|? ? Hlink Hlinks'].
  cbn [style_loop]. unfold links_source in Hlink. rewrite Hlink.
  cbn [mbind completion_bind].
  assert (Hnext : Z.of_nat k + 1 = Z.of_nat (S k)) by lia.
  rewrite Hnext.
  assert (Hrest :
            style_loop host descriptor pluginContext asCustomElement
              (Z.of_nat (S k)) styles
              (stylesCode
               ++ plain_style_import descriptor asCustomElement k style)
              cssModulesMap
            = Normal
                (stylesCode
                 ++ concat
                      (imap (fun j => plain_style_import descriptor
                                        asCustomElement (k + j))
                         (style :: styles)),
                 cssModulesMap)).
  { rewrite IH by done. rewrite imap_cons. cbn [concat].
    rewrite Nat.add_0_r, <- app_assoc. do 5 f_equal.
    apply imap_ext. intros j s _. unfold compose.
    by rewrite Nat.add_succ_r. }
  assert (Himport :
            (if asCustomElement
             then nl ++ lit "import _style_" ++ number_to_string (Z.of_nat k)
                  ++ lit " from "
                  ++ JSON_stringify
                       (styleRequest descriptor asCustomElement (Z.of_nat k)
                          style)
             else nl ++ lit "import "
                  ++ JSON_stringify
                       (styleRequest descriptor asCustomElement (Z.of_nat k)
                          style))
            = plain_style_import descriptor asCustomElement k style).
  { unfold plain_style_import. destruct asCustomElement;
      by rewrite <- ?app_assoc. }
  destruct (Block.module style) as [moduleName|].
  - rewrite Hstyle. rewrite Himport. exact Hrest.
  - rewrite Himport. exact Hrest.
Qed.

(** X15.  When no style region is a CSS module and linking the external
    sources succeeds, the style code is one import for each region, in
    the order of the regions and numbered from zero: a bare import
    outside custom-element mode, an import bound to [_style_] followed
    by the index in custom-element mode.  The attached properties are
    extended in custom-element mode only, by the array of those
    bindings, and only when there is a style region at all. *)
Theorem genStyleCode_plain descriptor pluginContext asCustomElement
    attachedProps :
  let styles := Descriptor.styles descriptor in
  Forall (fun style => module_truthy (Block.module style) = false) styles ->
  Forall (links_source host descriptor pluginContext) styles ->
  genStyleCode host descriptor pluginContext asCustomElement attachedProps
  = Normal
      (concat (imap (plain_style_import descriptor asCustomElement) styles),
       if asCustomElement && negb (bool_decide (styles = []))
       then attachedProps
            ++ [(lit "styles",
                 lit "["
                 ++ join (lit ",")
                      (imap (fun i _ =>
                               lit "_style_" ++ number_to_string (Z.of_nat i))
                         styles)
                 ++ lit "]")]
       else attachedProps).
Proof.
  intros styles Hplain Hlinks. unfold genStyleCode. fold styles.
  destruct styles as [|style styles'] eqn:Hstyles.
  { cbn. by rewrite andb_false_r. }
  rewrite <- Hstyles in *.
  assert (bool_decide (length styles = 0%nat) = false) as ->.
  { rewrite Hstyles. by apply bool_decide_eq_false. }
  assert (bool_decide (styles = []) = false) as ->.
  { rewrite Hstyles. by apply bool_decide_eq_false. }
  cbn [negb]. rewrite andb_true_r.
  pose proof (style_loop_plain descriptor pluginContext asCustomElement styles
                Hplain Hlinks 0 [] None) as Hloop.
  change (Z.of_nat 0) with 0 in Hloop. rewrite Hloop.
  cbn [mbind completion_bind mret completion_ret app Nat.add].
  unfold style_names. by destruct asCustomElement.
Qed.

(** Whether the loop leaves a map of CSS modules. *)
Lemma style_loop_modules descriptor pluginContext asCustomElement styles :
  forall i stylesCode cssModulesMap stylesCode' cssModulesMap',
    style_loop host descriptor pluginContext asCustomElement i styles
      stylesCode cssModulesMap
    = Normal (stylesCode', cssModulesMap') ->
    bool_decide (is_Some cssModulesMap')
    = bool_decide (is_Some cssModulesMap)
      || existsb (fun style => module_truthy (Block.module style)) styles.
Proof.
  induction styles as [|style styles IH];
    intros i stylesCode cssModulesMap stylesCode' cssModulesMap' H.
  { injection H as <- <-. by rewrite orb_false_r. }
  cbn [style_loop] in H. completed H as [].
  completed H as [code map] with Hstep.
  apply IH in H. rewrite H. cbn [existsb].
  destruct (Block.module style) as [moduleName|].
  - destruct (module_truthy (Some moduleName)) eqn:Htruthy.
    + destruct asCustomElement; [discriminate|].
      destruct (genCSSModulesCode i _ moduleName) as [importCode nameMap].
      injection Hstep as <- <-. by rewrite orb_true_r.
    + by injection Hstep as <- <-.
  - by injection Hstep as <- <-.
Qed.

(** X16.  When the generation of the style code completes, the attached
    properties it returns are the ones it was given, followed by the
    [styles] property in custom-element mode, if the document has a
    style region, and by the [__cssModules] property exactly when some
    style region is a CSS module. *)
Theorem genStyleCode_attached_props descriptor pluginContext asCustomElement
    attachedProps stylesCode attachedProps' :
  genStyleCode host descriptor pluginContext asCustomElement attachedProps
  = Normal (stylesCode, attachedProps') ->
  let styles := Descriptor.styles descriptor in
  attachedProps'
  = attachedProps
    ++ (if asCustomElement && negb (bool_decide (styles = []))
        then [(lit "styles",
               lit "[" ++ join (lit ",") (style_names styles) ++ lit "]")]
        else [])
    ++ (if existsb (fun style => module_truthy (Block.module style)) styles
        then [(lit "__cssModules", lit "cssModules")]
        else []).
Proof.
  intros H styles. unfold genStyleCode in H. fold styles in H.
  completed H as [[code map] props] with Hloop.
  assert (Hmap : bool_decide (is_Some map)
                 = existsb (fun style => module_truthy (Block.module style))
                     styles
                 /\ props
                    = attachedProps
                      ++ (if asCustomElement
                             && negb (bool_decide (styles = []))
                          then [(lit "styles",
                                 lit "[" ++ join (lit ",") (style_names styles)
                                 ++ lit "]")]
                          else [])).
  { destruct styles as [|style styles'] eqn:Hstyles.
    - cbn in Hloop. injection Hloop as <- <- <-.
      rewrite andb_false_r. by rewrite app_nil_r.
    - rewrite <- Hstyles in *.
      assert (bool_decide (length styles = 0%nat) = false) as Hlen.
      { rewrite Hstyles. by apply bool_decide_eq_false. }
      rewrite Hlen in Hloop. cbn [negb] in Hloop.
      completed Hloop as [code' map'] with Hstyle_loop.
      injection Hloop as <- <- <-.
      apply style_loop_modules in Hstyle_loop. cbn [orb] in Hstyle_loop.
      split; [exact Hstyle_loop|].
      assert (bool_decide (styles = []) = false) as ->.
      { rewrite Hstyles. by apply bool_decide_eq_false. }
      cbn [negb]. rewrite andb_true_r.
      destruct asCustomElement; [done|by rewrite app_nil_r]. }
  destruct Hmap as [Hmap ->]. rewrite <- Hmap.
  destruct map as [cssModulesMap|]; injection H as <- <-.
  - by rewrite <- app_assoc.
  - by rewrite !app_nil_r.
Qed.

End StyleCode.

Lemma genStyleCode_plain_witness :
  genStyleCode (host_of (document None None [scoped_style; scoped_style]))
    (document None None [scoped_style; scoped_style]) sample_context true []
  = Normal
      (nl ++ lit "import _style_0 from "
       ++ JSON_stringify
            (lit "/src/App.vue?vue&type=style&index=0&inline&scoped=7ba5bd90&lang.css")
       ++ nl ++ lit "import _style_1 from "
       ++ JSON_stringify
            (lit "/src/App.vue?vue&type=style&index=1&inline&scoped=7ba5bd90&lang.css"),
       [(lit "styles", lit "[_style_0,_style_1]")]).
Proof.
  rewrite (genStyleCode_plain
             (host_of (document None None [scoped_style; scoped_style]))).
  - reflexivity.
  - repeat constructor.
  - repeat constructor.
Defined.

Lemma genStyleCode_attached_props_witness :
  let descriptor := document None None [scoped_style; module_style] in
  let stylesCode :=
    nl ++ lit "import "
    ++ JSON_stringify
         (lit "/src/App.vue?vue&type=style&index=0&scoped=7ba5bd90&lang.css")
    ++ nl ++ lit "import style1 from "
    ++ JSON_stringify
         (lit "/src/App.vue?vue&type=style&index=1&lang.module.css")
    ++ nl ++ lit "const cssModules = {" ++ nl
    ++ [ascii_of_N 34] ++ lit "$style" ++ [ascii_of_N 34]
    ++ lit ":style1," ++ nl ++ lit "}" in
  genStyleCode (host_of descriptor) descriptor sample_context false
    [render_prop]
  = Normal (stylesCode, [render_prop; (lit "__cssModules", lit "cssModules")])
  /\ [render_prop; (lit "__cssModules", lit "cssModules")]
     = [render_prop] ++ [] ++ [(lit "__cssModules", lit "cssModules")].
Proof.
  intros descriptor stylesCode. split; [reflexivity|].
  apply (genStyleCode_attached_props (host_of descriptor) descriptor
           sample_context false [render_prop] stylesCode).
  reflexivity.
Defined.

(** ** The code of the custom regions, of the script and of the template *)

Section Regions.
Context (host : Collaborators).
Implicit Types pluginContext : PluginContext.t (RollupError host).

Lemma custom_block_loop_inline descriptor pluginContext blocks :
  Forall (fun block => given (Block.src block) = false) blocks ->
  forall (k : nat) code,
    custom_block_loop host descriptor pluginContext (Z.of_nat k) blocks code
    = Normal
        (code
         ++ concat (imap (fun j => custom_block_lines descriptor (k + j))
                      blocks)).
Proof.
  intros Hinline.
  induction blocks as [|block blocks IH]; intros k code.
  { cbn. by rewrite app_nil_r. }
  inversion_clear Hinline as [|? ? Hblock Hinline'].
  cbn [custom_block_loop]. unfold link_if_src, or_else. rewrite Hblock.
  cbn [mbind completion_bind mret completion_ret]. cbn iota.
  assert (Hnext : Z.of_nat k + 1 = Z.of_nat (S k)) by lia.
  rewrite Hnext, IH by done.
  rewrite imap_cons. cbn [concat default from_option].
  rewrite Nat.add_0_r. f_equal.
  assert (Htail :
    imap ((fun j => custom_block_lines descriptor (k + j)) ∘ S) blocks
    = imap (fun j => custom_block_lines descriptor (S k + j)) blocks).
  { apply imap_ext. intros j s _. unfold compose.
    by rewrite Nat.add_succ_r. }
  rewrite Htail. set (rest := concat _).
  unfold custom_block_lines. cbv zeta. unfold id. cbn [app].
  by rewrite <- !app_assoc.
Qed.

(** X17.  For custom regions without external source the generated
    code is, for each region in order and numbered from zero, the import
    of the region under the name [block] followed by its index, from a
    request that carries the type of the region, its index and its
    attributes, and the call of the imported value with [_sfc_main] if
    it is a function.  A document without custom region gets no code. *)
Theorem genCustomBlockCode_inline descriptor pluginContext :
  Forall (fun block => given (Block.src block) = false)
    (Descriptor.customBlocks descriptor) ->
  genCustomBlockCode host descriptor pluginContext
  = Normal
      (concat (imap (custom_block_lines descriptor)
                 (Descriptor.customBlocks descriptor))).
Proof.
  intros Hinline. unfold genCustomBlockCode.
  pose proof (custom_block_loop_inline descriptor pluginContext _ Hinline
                0 []) as Hloop.
  change (Z.of_nat 0) with 0 in Hloop. exact Hloop.
Qed.

(** X18.  The script code comes with a source map only when the script
    is placed in the main module: then the code is the content of the
    resolved script and the map is its map.  The facade that imports the
    script, and the object made up for a document without script, have
    no map. *)
Theorem genScriptCode_map descriptor options pluginContext ssr code map :
  genScriptCode host descriptor options pluginContext ssr
  = Normal (code, Some map) ->
  canInlineMain host descriptor options = true
  /\ exists script,
       resolveScript host descriptor options ssr = Normal (Some script)
       /\ code = Block.content script
       /\ Block.map script = Some map.
Proof.
  unfold genScriptCode. intros H.
  completed H as resolved with Hresolve.
  destruct resolved as [script|]; [|discriminate].
  destruct (canInlineMain host descriptor options).
  - injection H as <- Hmap. split; [done|]. by exists script.
  - completed H as []. discriminate.
Qed.

(** X19.  The template code comes with a source map only when the
    template is compiled in the main module, which requires that it has
    no external source and no language other than [html]; the import of
    an externally compiled template has no map.  Without a template the
    generation throws a [TypeError]. *)
Theorem genTemplateCode_map descriptor options pluginContext ssr :
  (Descriptor.template descriptor = None ->
   genTemplateCode host descriptor options pluginContext ssr
   = Throw JsTypeError)
  /\ (forall code map,
        genTemplateCode host descriptor options pluginContext ssr
        = Normal (code, Some map) ->
        exists template,
          Descriptor.template descriptor = Some template
          /\ given (Block.src template) = false
          /\ (given (Block.lang template) = false
              \/ Block.lang template = Some (lit "html"))
          /\ transformTemplateInMain host (Block.content template) descriptor
               options pluginContext ssr
             = Normal (code, Some map)).
Proof.
  unfold genTemplateCode. split.
  - by intros ->.
  - intros code map H.
    destruct (Descriptor.template descriptor) as [template|]; [|discriminate].
    exists template. split; [done|].
    destruct ((negb (given (Block.lang template))
               || bool_decide (Block.lang template = Some (lit "html")))
              && negb (given (Block.src template))) eqn:Hinline.
    + apply andb_true_iff in Hinline as [Hlang Hsrc].
      apply negb_true_iff in Hsrc. split; [done|]. split; [|done].
      apply orb_true_iff in Hlang as [Hlang|Hlang].
      * left. by apply negb_true_iff.
      * right. by apply bool_decide_eq_true in Hlang.
    + completed H as []. discriminate.
Qed.

End Regions.

Lemma genCustomBlockCode_inline_witness :
  let block :=
    {| Block.type := lit "i18n"; Block.content := lit "{}";
       Block.attrs := [(lit "locale", AttrString (lit "en"))];
       Block.map := None; Block.lang := None; Block.src := None;
       Block.scoped := None; Block.module := None |} in
  let descriptor :=
    {| Descriptor.filename := lit "/src/App.vue";
       Descriptor.id := lit "7ba5bd90";
       Descriptor.template := None; Descriptor.script := None;
       Descriptor.scriptSetup := None; Descriptor.styles := [];
       Descriptor.customBlocks := [block] |} in
  genCustomBlockCode (host_of descriptor) descriptor sample_context
  = Normal
      (lit "import block0 from "
       ++ JSON_stringify
            (lit "/src/App.vue?vue&type=i18n&index=0&locale=en&lang.i18n")
       ++ nl ++ lit "if (typeof block0 === 'function') block0(_sfc_main)"
       ++ nl).
Proof.
  intros block descriptor.
  rewrite (genCustomBlockCode_inline (host_of descriptor)).
  - reflexivity.
  - repeat constructor.
Defined.

Lemma genScriptCode_map_witness :
  let script :=
    {| Block.type := lit "script"; Block.content := default_export_script;
       Block.attrs := []; Block.map := Some empty_map; Block.lang := None;
       Block.src := None; Block.scoped := None; Block.module := None |} in
  canInlineMain (host_of (document (Some script) None []))
    (document (Some script) None []) sample_options = true
  /\ exists resolved,
       resolveScript (host_of (document (Some script) None []))
         (document (Some script) None []) sample_options false
       = Normal (Some resolved)
       /\ default_export_script = Block.content resolved
       /\ Block.map resolved = Some empty_map.
Proof.
  intros script.
  apply (genScriptCode_map (host_of (document (Some script) None []))
           (document (Some script) None []) sample_options sample_context
           false default_export_script empty_map).
  reflexivity.
Defined.

Lemma genTemplateCode_map_witness :
  genTemplateCode (host_of (document None None [])) (document None None [])
    sample_options sample_context false
  = Throw JsTypeError.
Proof.
  destruct (genTemplateCode_map (host_of (document None None []))
              (document None None []) sample_options sample_context false)
    as [Hnone _].
  apply Hnone. reflexivity.
Defined.

(* ================================================================== *)
(** * Further properties of the main transform *)
(* ================================================================== *)

Section LineOffsets.


End LineOffsets.

Section MainTransform.
Context (babel : BabelParser) (maps : SourceMapLib) (host : Collaborators).
Implicit Types pluginContext : PluginContext.t (RollupError host).

(** The parts of the text that [assemble] returns. *)
Lemma assemble_parts code filename options pluginContext ssr asCustomElement
    descriptor resolvedCode resolvedMap :
  assemble babel maps host code filename options pluginContext ssr
    asCustomElement
  = Normal (Some (descriptor, resolvedCode, resolvedMap)) ->
  snd (createDescriptor host filename code options) = []
  /\ exists scriptCode scriptMap templateMap output attachedProps attachedHooks
       injected,
       genScriptCode host descriptor options pluginContext ssr
       = Normal (scriptCode, scriptMap)
       /\ resolvedMap
          = resolve_map maps options scriptCode scriptMap templateMap
       /\ injectIntoComponent babel scriptCode attachedProps attachedHooks
          = Normal injected
       /\ resolvedCode
          = join nl
              ((if ssr
                then [lit "import { useSSRContext as __vite_useSSRContext } from 'vue'"]
                else [])
               ++ output ++ [injected]).
Proof.
  unfold assemble. intros H.
  destruct (createDescriptor host filename code options)
    as [descriptor' errors].
  completed H as [].
  destruct errors as [|error errors].
  2: { cbn in H. completed H as []. discriminate. }
  cbn [length negb] in H. rewrite bool_decide_eq_true_2 in H by done.
  cbn [negb] in H.
  completed H as [scriptCode scriptMap] with Hscript.
  completed H as [templateCode templateMap].
  completed H as [stylesCode attachedProps'] with Hstyles.
  completed H as customBlocksCode.
  completed H as injected with Hinject.
  split; [done|].
  match type of H with
  | context [if ssr then _ :: ?output else _] =>
      exists scriptCode, scriptMap, templateMap, output
  end.
  injection H as <- <- <-.
  eexists _, _, injected. split; [done|]. split; [done|].
  split; [exact Hinject|]. by destruct ssr.
Qed.

Lemma transformMain_parts code filename options pluginContext ssr
    asCustomElement result :
  transformMain babel maps host code filename options pluginContext ssr
    asCustomElement
  = Normal (Some result) ->
  exists descriptor resolvedCode resolvedMap,
    assemble babel maps host code filename options pluginContext ssr
      asCustomElement
    = Normal (Some (descriptor, resolvedCode, resolvedMap))
    /\ TransformResult.map result
       = match resolvedMap with
         | Some _ => TransformResult.map result
         | None => NoMappings
         end
    /\ (TransformResult.code result = resolvedCode
        \/ exists loweredMap,
             transformWithEsbuild host resolvedCode filename
               (Options.sourceMap options) resolvedMap
             = Normal (TransformResult.code result, loweredMap)).
Proof.
  unfold transformMain. intros H.
  completed H as [[[descriptor resolvedCode] resolvedMap]|] with Hassemble;
    [|discriminate].
  exists descriptor, resolvedCode, resolvedMap. split; [done|].
  completed H as result' with Hlower. injection H as ->.
  unfold lower_and_return in Hlower.
  completed Hlower as [finalCode finalMap] with Hstep.
  injection Hlower as <-. cbn [TransformResult.map TransformResult.code].
  destruct (_ && _ && _) in Hstep.
  - completed Hstep as [loweredCode loweredMap] with Hesbuild.
    injection Hstep as <- <-. split.
    + by destruct resolvedMap.
    + right. by exists loweredMap.
  - injection Hstep as <- <-. split.
    + by destruct resolvedMap.
    + by left.
Qed.

(** X21.  When the compiler reports errors for the document, the first
    of them is handed to the [error] function of the plugin context as
    a Rollup error, and what that function throws is what
    [transformMain] throws: the later errors are not reported and no
    code is generated. *)
Theorem transformMain_parse_error code filename options pluginContext ssr
    asCustomElement first rest e :
  snd (createDescriptor host filename code options) = first :: rest ->
  (existsSync host filename = true ->
   getDescriptor host filename options = Normal tt) ->
  PluginContext.error pluginContext (createRollupError host filename first)
  = Throw e ->
  transformMain babel maps host code filename options pluginContext ssr
    asCustomElement
  = Throw e.
Proof.
  intros Herrors Hcache Hreport. unfold transformMain, assemble.
  destruct (createDescriptor host filename code options)
    as [descriptor errors].
  cbn [snd] in Herrors. subst errors.
  destruct (existsSync host filename).
  - rewrite Hcache by done. cbn. by rewrite Hreport.
  - cbn. by rewrite Hreport.
Qed.

(** X22.  With source maps switched off in the options, a module that
    [transformMain] returns has no mappings, whatever maps the script
    and the template came with and whether or not the text was
    lowered. *)
Theorem transformMain_without_source_maps code filename options pluginContext
    ssr asCustomElement result :
  Options.sourceMap options = false ->
  transformMain babel maps host code filename options pluginContext ssr
    asCustomElement
  = Normal (Some result) ->
  TransformResult.map result = NoMappings.
Proof.
  intros Hoff H.
  apply transformMain_parts in H
    as (descriptor & resolvedCode & resolvedMap & Hassemble & Hmap & _).
  apply assemble_parts in Hassemble
    as (_ & scriptCode & scriptMap & templateMap & _ & _ & _ & _ & _
        & -> & _).
  unfold resolve_map in Hmap. by rewrite Hoff in Hmap.
Qed.

(** X23.  When rendering on the server, the text that [transformMain]
    assembles, and then returns or hands to the lowering step, begins
    with the line that imports [useSSRContext] from [vue]. *)
Theorem transformMain_ssr_import code filename options pluginContext
    asCustomElement result :
  transformMain babel maps host code filename options pluginContext true
    asCustomElement
  = Normal (Some result) ->
  exists rest,
    let text :=
      lit "import { useSSRContext as __vite_useSSRContext } from 'vue'"
      ++ nl ++ rest in
    TransformResult.code result = text
    \/ exists map loweredMap,
         transformWithEsbuild host text filename (Options.sourceMap options)
           map
         = Normal (TransformResult.code result, loweredMap).
Proof.
  intros H.
  apply transformMain_parts in H
    as (descriptor & resolvedCode & resolvedMap & Hassemble & _ & Hcode).
  apply assemble_parts in Hassemble
    as (_ & scriptCode & scriptMap & templateMap & output & props & hooks
        & injected & _ & _ & _ & ->).
  exists (join nl (output ++ [injected])). cbv zeta.
  assert (Hjoin :
    join nl
      ([lit "import { useSSRContext as __vite_useSSRContext } from 'vue'"]
       ++ output ++ [injected])
    = lit "import { useSSRContext as __vite_useSSRContext } from 'vue'"
      ++ nl ++ join nl (output ++ [injected])).
  { cbn [app]. apply join_cons_nonempty. by destruct output. }
  rewrite Hjoin in Hcode. destruct Hcode as [Hcode|[loweredMap Hcode]].
  - by left.
  - right. by exists resolvedMap, loweredMap.
Qed.

End MainTransform.

Lemma transformMain_parse_error_witness :
  transformMain sample_parser (listing_maps [])
    (failing_host [lit "Element is missing end tag."; lit "Invalid end tag."])
    [] (lit "/src/App.vue") sample_options sample_context false false
  = Throw (Foreign (lit "/src/App.vue: Element is missing end tag.")).
Proof.
  apply (transformMain_parse_error sample_parser (listing_maps [])
           (failing_host
              [lit "Element is missing end tag."; lit "Invalid end tag."])
           [] (lit "/src/App.vue") sample_options sample_context false false
           (lit "Element is missing end tag.") [lit "Invalid end tag."]);
    reflexivity.
Defined.

Lemma transformMain_without_source_maps_witness :
  let descriptor := document (Some mapped_script) None [] in
  let result :=
    {| TransformResult.code := nl ++ nl ++ nl ++ default_export_script;
       TransformResult.map := NoMappings;
       TransformResult.lang := lit "js" |} in
  Block.map mapped_script = Some empty_map
  /\ transformMain sample_parser (listing_maps []) (host_of descriptor) []
       (lit "/src/App.vue") quiet_options sample_context false false
     = Normal (Some result)
  /\ TransformResult.map result = NoMappings.
Proof.
  intros descriptor result. split; [reflexivity|]. split; [reflexivity|].
  apply (transformMain_without_source_maps sample_parser (listing_maps [])
           (host_of descriptor) [] (lit "/src/App.vue") quiet_options
           sample_context false false result);
    reflexivity.
Defined.

Lemma transformMain_ssr_import_witness :
  let descriptor := document (Some mapped_script) None [] in
  exists result rest,
    transformMain sample_parser (listing_maps []) (host_of descriptor) []
      (lit "/src/App.vue") sample_options sample_context true false
    = Normal (Some result)
    /\ let text :=
         lit "import { useSSRContext as __vite_useSSRContext } from 'vue'"
         ++ nl ++ rest in
       (TransformResult.code result = text
        \/ exists map loweredMap,
             transformWithEsbuild (host_of descriptor) text
               (lit "/src/App.vue") true map
             = Normal (TransformResult.code result, loweredMap)).
Proof.
  intros descriptor.
  destruct (transformMain sample_parser (listing_maps []) (host_of descriptor)
              [] (lit "/src/App.vue") sample_options sample_context true false)
    as [[result|]|e] eqn:Hrun; [|discriminate Hrun|discriminate Hrun].
  exists result.
  destruct (transformMain_ssr_import sample_parser (listing_maps [])
              (host_of descriptor) [] (lit "/src/App.vue") sample_options
              sample_context false result Hrun) as [rest Hrest].
  exists rest. split; [reflexivity|exact Hrest].
Defined.
